(** * Lissajous audio generator: control logic of [lissajous.py]

    A shallow embedding of the two classes of [lissajous.py],
    [AudioControl] (the oscillator bank with its spinners and sliders) and
    [mainFrame] (buttons, timers, load and save), and the properties of
    its parameter store, playback queue, display loop and recorder.

    Modelling conventions.
    - A Python float is a rational number ([Qc], the canonical rationals,
      so that equal values are equal terms), and every arithmetic
      operation and every conversion of a literal delivers the exact
      result rounded by [rnd].  The program runs with [binary64], the
      rounding of IEEE 754 doubles: to 53 significant bits, to the
      multiples of 2^-1074 below 2^-1022, and to a number of magnitude
      2^1024 or more where a double overflows.  Such a number stands
      for [inf]: the program hands every float it computes to a control
      before it uses it again, and the control refuses one that is not
      finite.  [nan] arises only from text ([pyfloat]).  [exact], no
      rounding at all, is the idealisation.
    - The objects of the external libraries are records holding the
      attributes the program reads back: a [pyo.Sine] keeps the last
      frequency, gain and phase it was given, a [FloatSpin] keeps its value
      and range, a [wx.Timer] is running or not.
    - A Python exception is an [outcome]; the object mutated before the
      exception was raised is returned with it, since nothing is rolled
      back. *)

From Stdlib Require Import QArith Qcanon Qround Qpower Lqa Ascii String.
From stdpp Require Import gmap strings list numbers pretty.

Local Open Scope Qc_scope.

(** ** Numbers *)

Definition Qc_of_ints (n : Z) (d : positive) : Qc := Q2Qc (n # d).

(** The rounding of the float arithmetic. *)
Class Rounding : Type := rnd : Qc -> Qc.

(** No rounding: arithmetic on the rationals. *)
Definition exact : Rounding := fun x => x.

(** The largest [e] with 2^e <= n/d. *)
Definition binade (n d : positive) : Z :=
  let e0 := (Z.log2 (Z.pos n) - Z.log2 (Z.pos d))%Z in
  if (match e0 with
      | Z.neg k => (Z.pos d <=? Z.pos n * 2 ^ Z.pos k)%Z
      | _ => (Z.pos d * 2 ^ e0 <=? Z.pos n)%Z
      end)
  then e0 else (e0 - 1)%Z.

(** The integer nearest to [q], the even one of two at the same
    distance. *)
Definition rne (q : Q) : Z :=
  let f := Qfloor q in
  match Qcompare (q - inject_Z f) (1 # 2) with
  | Lt => f
  | Gt => (f + 1)%Z
  | Eq => if Z.even f then f else (f + 1)%Z
  end.

(** The multiple of 2^k nearest to [q]. *)
Definition round_at (k : Z) (q : Q) : Q :=
  (inject_Z (rne (q / 2 ^ k)) * 2 ^ k)%Q.

(** A positive rational rounded to the nearest double: to 53 significant
    bits (the multiples of 2^k that lie in 2^52..2^53 times 2^k), or to a
    multiple of 2^-1074 where that is coarser (the doubles below 2^-1022
    are the multiples of 2^-1074). *)
Definition round53 (n d : positive) : Q :=
  round_at (Z.max (binade n d - 52) (-1074)) (Z.pos n # d).

Definition round_b64 (x : Qc) : Qc :=
  match Qnum x with
  | Z0 => x
  | Z.pos n => Q2Qc (round53 n (Qden x))
  | Z.neg n => Q2Qc (- round53 n (Qden x))
  end.

(** Round to nearest, ties to even, as the arithmetic of doubles does. *)
Definition binary64 : Rounding := round_b64.

(** The integers that the program writes are floats as they are. *)
Definition q20 : Qc := Qc_of_Z 20.
Definition q100 : Qc := Qc_of_Z 100.
Definition q360 : Qc := Qc_of_Z 360.
Definition q20000 : Qc := Qc_of_Z 20000.

Definition Qcleb (x y : Qc) : bool := Qle_bool x y.

(** Conversion of a float to a C [int], as done for an integer argument of
    a toolkit call: the fraction is dropped (rounding toward zero). *)
Definition truncate (x : Qc) : Z := Z.quot (Qnum x) (Z.pos (Qden x)).

(** The magnitude from which on a float is infinite: the doubles end
    below 2^1024, and what rounds to 2^1024 or more is [inf]. *)
Definition huge : Qc := Q2Qc (2 ^ 1024).

Definition is_finite (x : Qc) : bool :=
  negb (Qcleb huge x) && negb (Qcleb x (- huge)).

(** The range of a C [int]. *)
Definition INT_MIN : Z := - 2 ^ 31.
Definition INT_MAX : Z := 2 ^ 31 - 1.

Definition fits_int (x : Qc) : bool :=
  (INT_MIN <=? truncate x)%Z && (truncate x <=? INT_MAX)%Z.

(** A float as a [FloatSpin] compares it: converted to a fixed-point
    number of 20 decimals, the nearest one, the even one of two at the
    same distance. *)
Definition fix20 (x : Qc) : Qc :=
  Q2Qc (inject_Z (rne (x * inject_Z (10 ^ 20))) / inject_Z (10 ^ 20)).

(** ** Constants (lines 61-72) *)

Definition CH_CNT : nat := 3 * 2.
Definition PLAY_TIME : Z := 10 * 1000.
Definition FRAMERATE : Z := 200.
Definition INIT_FREQ : Qc := Qc_of_Z 400.
Definition INIT_PHASE : Qc := Qc_of_Z 0.

(** ** Exceptions and outcomes *)

Inductive exn : Set :=
| IndexError
| ValueError
| AttributeError
| IOError
| AssertionError
| OverflowError
| CsvError.

Inductive outcome (A : Type) : Type :=
| Ok (a : A)
| Raise (e : exn).
Arguments Ok {A} a.
Arguments Raise {A} e.

(** A computation on a mutable object of type [S]: it ends normally or
    with an exception, and in both cases leaves the object as mutated so
    far. *)
Definition M (S A : Type) : Type := S -> outcome A * S.

Definition ret {S A} (a : A) : M S A := fun s => (Ok a, s).
Definition raise {S A} (e : exn) : M S A := fun s => (Raise e, s).
Definition bind {S A B} (m : M S A) (k : A -> M S B) : M S B :=
  fun s => match m s with
           | (Ok a, s') => k a s'
           | (Raise e, s') => (Raise e, s')
           end.
Definition get {S} : M S S := fun s => (Ok s, s).
Definition modify {S} (f : S -> S) : M S unit := fun s => (Ok tt, f s).
Definition of_option {S A} (e : exn) (o : option A) : M S A :=
  match o with Some a => ret a | None => raise e end.

Notation "x <- m ;; k" := (bind m (fun x => k))
  (at level 100, m at next level, right associativity).
Notation "m ;;; k" := (bind m (fun _ => k))
  (at level 100, right associativity).

(** The number n * 2^j. *)
Definition repr (n j : Z) : Qc := Q2Qc (inject_Z n * 2 ^ j).

(** What the two roundings have in common: they keep the order, and
    they leave alone a number n * 2^j whose n fits in 53 bits and whose
    j is not below -1074. *)
Class RoundingLaws (fl : Rounding) : Prop := {
  rnd_mono : forall x y : Qc, x <= y -> rnd x <= rnd y;
  rnd_repr : forall n j : Z,
    (Z.abs n < 2 ^ 53)%Z -> (-1074 <= j)%Z -> rnd (repr n j) = repr n j }.

Section Program.
Context `{fl : Rounding}.

(** ** Float arithmetic *)

Definition fmul (x y : Qc) : Qc := rnd (x * y).
Definition fdiv (x y : Qc) : Qc := rnd (x / y).

(** The float written as the decimal literal n/d, and the float of an
    integer. *)
Definition literal (n : Z) (d : positive) : Qc := rnd (Qc_of_ints n d).
Definition float_of_int (n : Z) : Qc := rnd (Qc_of_Z n).

Definition q0_5 : Qc := literal 1 2.
Definition q1_05 : Qc := literal 105 100.
Definition RECBUFFER : Qc := literal 1 100.
Definition INIT_MUL : Qc := q0_5.

(** ** Text of a parameter file *)

(** A value of a row handed to [set_audio_params]: a float (a row from
    [get_audio_params], or a number written by [csv.writer] and read back)
    or a string (a field produced by [csv.reader]). *)
Inductive cell : Type :=
| Num (x : Qc)
| Text (s : string).

(** What [float] returns: a number (infinite from [huge] on), or
    [nan]. *)
Inductive pyfloat : Type :=
| Real (x : Qc)
| NaN.

(** The number of a float that is finite. *)
Definition finite (x : pyfloat) : option Qc :=
  match x with
  | Real v => if is_finite v then Some v else None
  | NaN => None
  end.

(** The number of a float that is not [nan]. *)
Definition real (x : pyfloat) : option Qc :=
  match x with
  | Real v => Some v
  | NaN => None
  end.

(** A float times a constant. *)
Definition pymul (x : pyfloat) (c : Qc) : pyfloat :=
  match x with
  | Real v => Real (fmul v c)
  | NaN => NaN
  end.

Definition is_space (c : ascii) : bool :=
  let n := nat_of_ascii c in
  (n =? 32)%nat || ((9 <=? n)%nat && (n <=? 13)%nat).

Definition digit_of (c : ascii) : option Z :=
  let n := nat_of_ascii c in
  if ((48 <=? n)%nat && (n <=? 57)%nat) then Some (Z.of_nat (n - 48)) else None.

(** Reads a run of decimal digits: the number read so far, how many digits
    were read, and the rest of the input. *)
Fixpoint read_digits (acc : Z) (cnt : nat) (cs : list ascii) : Z * nat * list ascii :=
  match cs with
  | c :: cs' =>
      match digit_of c with
      | Some d => read_digits (10 * acc + d) (S cnt) cs'
      | None => (acc, cnt, cs)
      end
  | [] => (acc, cnt, cs)
  end.

Definition read_sign (cs : list ascii) : bool * list ascii :=
  match cs with
  | "-"%char :: cs' => (true, cs')
  | "+"%char :: cs' => (false, cs')
  | _ => (false, cs)
  end.

(** The exponent part [e<sign><digits>], if there is one. *)
Definition read_exponent (cs : list ascii) : option (Z * list ascii) :=
  match cs with
  | c :: cs' =>
      if bool_decide (c = "e"%char) || bool_decide (c = "E"%char) then
        let '(neg, cs1) := read_sign cs' in
        let '(e, cnt, cs2) := read_digits 0 0 cs1 in
        match cnt with
        | O => None
        | _ => Some (if neg then (- e)%Z else e, cs2)
        end
      else Some (0%Z, cs)
  | [] => Some (0%Z, cs)
  end.

Definition scale10 (m e : Z) : Qc :=
  match e with
  | Z.neg p => Qc_of_ints m (10 ^ p)
  | _ => Qc_of_Z (m * 10 ^ e)
  end.

Fixpoint drop_spaces (cs : list ascii) : list ascii :=
  match cs with
  | c :: cs' => if is_space c then drop_spaces cs' else cs
  | [] => []
  end.

Definition lower (c : ascii) : ascii :=
  let n := nat_of_ascii c in
  if ((65 <=? n)%nat && (n <=? 90)%nat) then ascii_of_nat (n + 32) else c.

(** The words that [float] reads as a float that is not finite, after
    the sign and in either case: [inf], [infinity], [nan]. *)
Definition read_word (neg : bool) (cs : list ascii) : option pyfloat :=
  let w := string_of_list_ascii (map lower cs) in
  if bool_decide (w = "inf") || bool_decide (w = "infinity")
  then Some (Real (if neg then - huge else huge))
  else if bool_decide (w = "nan") then Some NaN
  else None.

Fixpoint drop_spaces_end (cs : list ascii) : list ascii :=
  match cs with
  | c :: cs' =>
      match drop_spaces_end cs' with
      | [] => if is_space c then [] else [c]
      | r => c :: r
      end
  | [] => []
  end.

(** [float(s)] on a string: surrounding white space is dropped, then an
    optional sign, and either one of the words of [read_word], or digits
    with an optional fraction (at least one digit in all) and an
    optional exponent, and nothing else; the float is the number
    written, rounded.  [None] is Python's [ValueError]. *)
Definition float_of_string (s : string) : option pyfloat :=
  let cs := drop_spaces (list_ascii_of_string s) in
  let '(neg, cs) := read_sign cs in
  match read_word neg (drop_spaces_end cs) with
  | Some x => Some x
  | None =>
      let '(ip, n_int, cs) := read_digits 0 0 cs in
      let '(m, n_frac, cs) :=
        match cs with
        | "."%char :: cs' => read_digits ip 0 cs'
        | _ => (ip, O, cs)
        end in
      match (n_int + n_frac)%nat with
      | O => None
      | _ =>
          match read_exponent cs with
          | Some (e, cs) =>
              match drop_spaces cs with
              | [] =>
                  let v := rnd (scale10 m (e - Z.of_nat n_frac)) in
                  Some (Real (if neg then - v else v))
              | _ => None
              end
          | None => None
          end
      end
  end.

(** The builtin [float] applied to a value of a row. *)
Definition float (c : cell) : option pyfloat :=
  match c with
  | Num x => Some (Real x)
  | Text s => float_of_string s
  end.

(** [float] of a value that it has made a number of before. *)
Definition float_number (c : cell) : option Qc := float c ≫= real.

(** Splitting at a separator character. *)
Fixpoint split_on (sep : ascii) (cur : list ascii) (cs : list ascii) : list (list ascii) :=
  match cs with
  | [] => [reverse cur]
  | c :: cs' =>
      if bool_decide (c = sep) then reverse cur :: split_on sep [] cs'
      else split_on sep (c :: cur) cs'
  end.

Definition LF : ascii := ascii_of_nat 10.
Definition CR : ascii := ascii_of_nat 13.

(** The lines of a text: a final line end does not open another line. *)
Definition lines_of (cs : list ascii) : list (list ascii) :=
  match reverse (split_on LF [] cs) with
  | [] :: r => reverse r
  | _ => split_on LF [] cs
  end.

(** One row of [csv.reader(f, delimiter=',')] for a line of plain text:
    the fields between the commas; an empty line is an empty row. *)
Definition csv_row (line : list ascii) : list string :=
  match line with
  | [] => []
  | l => map string_of_list_ascii (split_on ","%char [] l)
  end.

(** Plain text: no quote character, which starts a quoted field, no
    carriage return and no NUL, on which the reader may raise. *)
Definition plain (c : ascii) : bool :=
  negb (bool_decide (c = ascii_of_nat 34) || bool_decide (c = CR)
        || bool_decide (c = ascii_of_nat 0)).

(** The rows that [csv.reader] yields for a file of plain text, line by
    line.  What the reader makes of other text is not modelled here: a
    file is kept by what the reader yields for it ([file]). *)
Definition csv_reader (text : string) : option (list (list string)) :=
  let cs := list_ascii_of_string text in
  if forallb plain cs then Some (map csv_row (lines_of cs)) else None.

(** What iterating over the argument of [set_audio_params] gives: the
    rows, one after the other, and then the end of the iteration, or, from
    a [csv.reader] that cannot go on, [csv.Error]. *)
Record iterable : Type := mkIter {
  it_rows : list (list cell);
  it_error : bool }.

(** A file on disk, by what [csv.reader] yields for it: rows of strings
    and then the end ([error] false) or [csv.Error]; for a file that
    [csv.writer] wrote for a list of float tuples, the rows of the numbers
    (floats are written in a form that [float] reads back to the same
    value). *)
Inductive file : Type :=
| Lines (rows : list (list string)) (error : bool)
| Written (rows : list (list Qc)).

(** [csv.reader(f, delimiter=',')] on the open file. *)
Definition reader (f : file) : iterable :=
  match f with
  | Lines rows error => mkIter (map (map Text) rows) error
  | Written rows => mkIter (map (map Num) rows) false
  end.


(** The file with the plain text [t]. *)
Definition text_file (t : string) : option file :=
  (fun rows => Lines rows false) <$> csv_reader t.

(** ** Objects of the external libraries *)

(** [wx.lib.agw.floatspin.FloatSpin]: [SetValue] keeps the given value when
    it lies in the range of the control, compared as a fixed-point number
    of 20 decimals, and leaves the control as it is otherwise; [GetValue]
    returns the value kept.  The value given is finite: the conversion to
    fixed point raises [AssertionError] on any other, which the caller
    models ([set_audio_row]). *)
Record FloatSpin : Type := mkFloatSpin {
  fs_Id : Z;
  fs_value : Qc;
  fs_min : Qc;
  fs_max : Qc }.

Definition InRange (v : Qc) (w : FloatSpin) : bool :=
  Qcleb (fs_min w) (fix20 v) && Qcleb (fix20 v) (fs_max w).

Definition FloatSpin_SetValue (v : Qc) (w : FloatSpin) : FloatSpin :=
  if InRange v w then mkFloatSpin (fs_Id w) v (fs_min w) (fs_max w) else w.

(** [wx.Slider]: an integer position kept between [minValue] and
    [maxValue]; a float argument is converted to a C [int] first, which
    the caller checks to be possible ([as_int]). *)
Record Slider : Type := mkSlider {
  sl_Id : Z;
  sl_value : Z;
  sl_min : Z;
  sl_max : Z }.

Definition Slider_SetValue (x : Qc) (w : Slider) : Slider :=
  mkSlider (sl_Id w) (Z.max (sl_min w) (Z.min (sl_max w) (truncate x)))
           (sl_min w) (sl_max w).

(** A window found by its Id, and the value its [GetValue] returns. *)
Inductive window : Type :=
| SpinWin (w : FloatSpin)
| SliderWin (w : Slider).

Definition GetValue (w : window) : Qc :=
  match w with
  | SpinWin w => fs_value w
  | SliderWin w => Qc_of_Z (sl_value w)
  end.

(** [pyo.Sine]: the attributes [freq], [mul] and [phase] hold what the
    setters were last given; [sine_pointer] is the position of the running
    phase accumulator, which [reset] puts back to 0; [sine_playing] is
    switched by [play] and [stop]. *)
Record Sine : Type := mkSine {
  sine_freq : Qc;
  sine_mul : Qc;
  sine_phase : Qc;
  sine_pointer : Qc;
  sine_playing : bool }.

Definition setFreq (x : Qc) (f : Sine) : Sine :=
  mkSine x (sine_mul f) (sine_phase f) (sine_pointer f) (sine_playing f).
Definition setMul (x : Qc) (f : Sine) : Sine :=
  mkSine (sine_freq f) x (sine_phase f) (sine_pointer f) (sine_playing f).
Definition setPhase (x : Qc) (f : Sine) : Sine :=
  mkSine (sine_freq f) (sine_mul f) x (sine_pointer f) (sine_playing f).
Definition reset (f : Sine) : Sine :=
  mkSine (sine_freq f) (sine_mul f) (sine_phase f) 0 (sine_playing f).
Definition stop (f : Sine) : Sine :=
  mkSine (sine_freq f) (sine_mul f) (sine_phase f) (sine_pointer f) false.
Definition play (f : Sine) : Sine :=
  mkSine (sine_freq f) (sine_mul f) (sine_phase f) (sine_pointer f) true.

(** [pyo.Pan(pyo.Mix(list), pan, spread)]: the oscillators mixed (as
    positions in [func], the list that holds the same objects), the pan
    position, the gain set by [setMul], and whether [out] was called. *)
Record Pan : Type := mkPan {
  pan_inputs : list nat;
  pan_pan : Qc;
  pan_spread : Qc;
  pan_mul : Qc;
  pan_out : bool }.

(** [pyo.Server]: the calls it received, whether it is started, and the
    file it records to, if it does. *)
Inductive server_call : Type :=
| Boot
| Start
| Stop
| RecStart (filename : string)
| RecStop.

Record Server : Type := mkServer {
  srv_calls : list server_call;
  srv_started : bool;
  srv_rec : option string }.

Definition server_call_on (c : server_call) (sv : Server) : Server :=
  mkServer (srv_calls sv ++ [c])
    (match c with Start => true | Stop => false | _ => srv_started sv end)
    (match c with RecStart f => Some f | RecStop => None | _ => srv_rec sv end).

(** ** class AudioControl *)

(** The attributes of an [AudioControl].  [trig_tbl] tells whether the
    [TableRec] that fills [table] was last started ([play]) or stopped;
    [server] is [self.s]. *)
Record AudioControl : Type := mkAudio {
  freq : list FloatSpin;
  freq_idlist : list Z;
  phase : list FloatSpin;
  phase_idlist : list Z;
  mul : list Slider;
  mul_idlist : list Z;
  func : list Sine;
  Lch : Pan;
  Rch : Pan;
  recording : bool;
  table : list (Qc * Qc);
  trig_tbl : bool;
  server : Server }.

Definition with_freq (x : list FloatSpin) (a : AudioControl) : AudioControl :=
  mkAudio x (freq_idlist a) (phase a) (phase_idlist a) (mul a) (mul_idlist a)
    (func a) (Lch a) (Rch a) (recording a) (table a) (trig_tbl a) (server a).
Definition with_phase (x : list FloatSpin) (a : AudioControl) : AudioControl :=
  mkAudio (freq a) (freq_idlist a) x (phase_idlist a) (mul a) (mul_idlist a)
    (func a) (Lch a) (Rch a) (recording a) (table a) (trig_tbl a) (server a).
Definition with_mul (x : list Slider) (a : AudioControl) : AudioControl :=
  mkAudio (freq a) (freq_idlist a) (phase a) (phase_idlist a) x (mul_idlist a)
    (func a) (Lch a) (Rch a) (recording a) (table a) (trig_tbl a) (server a).
Definition with_func (x : list Sine) (a : AudioControl) : AudioControl :=
  mkAudio (freq a) (freq_idlist a) (phase a) (phase_idlist a) (mul a) (mul_idlist a)
    x (Lch a) (Rch a) (recording a) (table a) (trig_tbl a) (server a).
Definition with_recording (x : bool) (a : AudioControl) : AudioControl :=
  mkAudio (freq a) (freq_idlist a) (phase a) (phase_idlist a) (mul a) (mul_idlist a)
    (func a) (Lch a) (Rch a) x (table a) (trig_tbl a) (server a).
Definition with_trig_tbl (x : bool) (a : AudioControl) : AudioControl :=
  mkAudio (freq a) (freq_idlist a) (phase a) (phase_idlist a) (mul a) (mul_idlist a)
    (func a) (Lch a) (Rch a) (recording a) (table a) x (server a).
Definition with_server (x : Server) (a : AudioControl) : AudioControl :=
  mkAudio (freq a) (freq_idlist a) (phase a) (phase_idlist a) (mul a) (mul_idlist a)
    (func a) (Lch a) (Rch a) (recording a) (table a) (trig_tbl a) x.

(** The toolkit gives every control an Id of its own; the model numbers
    the three controls of channel [i] 3i+1, 3i+2 and 3i+3. *)
Definition new_id (i : nat) (k : Z) : Z := 3 * Z.of_nat i + k.

(** Sampling rate of a [pyo.Server] created without arguments. *)
Definition SR : Qc := Qc_of_Z 44100.

(** One turn of the loop of [init_audio] (lines 129-159); [m100] is
    [mul*100], the product of two integers when [mul] is 0. *)
Definition init_channel (a : AudioControl) (i : nat) : AudioControl :=
  let right := (Z.of_nat (CH_CNT / 2) - 1 <? Z.of_nat i)%Z in
  let first := bool_decide (i = 0%nat) || bool_decide (i = (CH_CNT / 2)%nat) in
  let m := if first then INIT_MUL else 0 in
  let m100 := if first then fmul INIT_MUL q100 else 0 in
  let add_input (p : Pan) :=
    mkPan (pan_inputs p ++ [i]) (pan_pan p) (pan_spread p) (pan_mul p) (pan_out p) in
  mkAudio
    (freq a ++ [mkFloatSpin (new_id i 1) INIT_FREQ q20 q20000])
    (freq_idlist a ++ [new_id i 1])
    (phase a ++ [mkFloatSpin (new_id i 3) INIT_PHASE 0 q360])
    (phase_idlist a ++ [new_id i 3])
    (mul a ++ [Slider_SetValue m100 (mkSlider (new_id i 2) 0 0 105)])
    (mul_idlist a ++ [new_id i 2])
    (func a ++ [mkSine INIT_FREQ m 0 0 true])
    (if right then Lch a else add_input (Lch a))
    (if right then add_input (Rch a) else Rch a)
    (recording a) (table a) (trig_tbl a) (server a).

(** [AudioControl.__init__] and [init_audio]: the lists start empty, the
    loop fills them, the two mixes are panned left and right and scaled by
    0.5, and the table recorder is created but not started. *)
Definition init_audio : AudioControl :=
  let a0 :=
    mkAudio [] [] [] [] [] [] []
      (mkPan [] 0 0 1 false) (mkPan [] 1 0 1 false)
      false [] false (mkServer [Boot] false None) in
  let a1 := foldl init_channel a0 (seq 0 CH_CNT) in
  let finish (p : Pan) :=
    mkPan (pan_inputs p) (pan_pan p) (pan_spread p) q0_5 true in
  mkAudio (freq a1) (freq_idlist a1) (phase a1) (phase_idlist a1)
    (mul a1) (mul_idlist a1) (func a1)
    (finish (Lch a1)) (finish (Rch a1))
    false
    (replicate (Z.to_nat (truncate (fmul RECBUFFER SR))) (0, 0))
    false
    (server a1).

(** [start_buffer] (lines 175-180). *)
Definition start_buffer (enable : bool) (a : AudioControl) : AudioControl :=
  if enable then with_trig_tbl true a else with_trig_tbl false a.

(** [get_buffer_data] (lines 183-191). *)
Definition get_buffer_data (a : AudioControl) : list Qc * list Qc :=
  (map fst (table a), map snd (table a)).

(** [list.index]: the first position holding the value. *)
Fixpoint index (x : Z) (l : list Z) : option nat :=
  match l with
  | [] => None
  | y :: l' => if bool_decide (y = x) then Some 0%nat else S <$> index x l'
  end.

(** [FindWindowById] among the controls of the panel; [None] when no
    control has the Id. *)
Definition FindWindowById (ID : Z) (a : AudioControl) : option window :=
  match find (fun w => bool_decide (fs_Id w = ID)) (freq a) with
  | Some w => Some (SpinWin w)
  | None =>
      match find (fun w => bool_decide (sl_Id w = ID)) (mul a) with
      | Some w => Some (SliderWin w)
      | None => SpinWin <$> find (fun w => bool_decide (fs_Id w = ID)) (phase a)
      end
  end.

(** [fspin] (lines 194-199), for the event of the control with Id [ID]. *)
Definition fspin (ID : Z) : M AudioControl unit :=
  a <- get ;;
  let spinnerCtrl := FindWindowById ID a in
  chidx <- of_option ValueError (index ID (freq_idlist a)) ;;
  f <- of_option IndexError (func a !! chidx) ;;
  w <- of_option AttributeError spinnerCtrl ;;
  modify (with_func (<[chidx := setFreq (GetValue w) f]> (func a))).

(** [mspin] (lines 207-212); [float] of the value of the control is its
    rounding. *)
Definition mspin (ID : Z) : M AudioControl unit :=
  a <- get ;;
  let ctrl := FindWindowById ID a in
  chidx <- of_option ValueError (index ID (mul_idlist a)) ;;
  f <- of_option IndexError (func a !! chidx) ;;
  w <- of_option AttributeError ctrl ;;
  modify (with_func (<[chidx := setMul (fdiv (rnd (GetValue w)) q100) f]> (func a))).

(** The loop of [reset_phase] over [zip(self.func, self.phase)]: it ends
    with the shorter list, and oscillators beyond it are not touched. *)
Fixpoint reset_phase_loop (fs : list Sine) (phs : list FloatSpin) : list Sine :=
  match fs, phs with
  | f :: fs', ph :: phs' =>
      setPhase (fdiv (fs_value ph) q360) (reset f) :: reset_phase_loop fs' phs'
  | _, _ => fs
  end.

(** [reset_phase] (lines 215-219). *)
Definition reset_phase (a : AudioControl) : AudioControl :=
  with_func (reset_phase_loop (func a) (phase a)) a.

(** [phspin] (lines 202-204). *)
Definition phspin (ID : Z) (a : AudioControl) : AudioControl := reset_phase a.

(** [enable_server] (lines 222-227). *)
Definition enable_server (enable : bool) (a : AudioControl) : AudioControl :=
  if enable then with_server (server_call_on Start (server a)) a
  else with_server (server_call_on Stop (server a)) a.

(** [record] (lines 230-239): the value returned, the object, and the
    console after the call. *)
Definition record (filename : string) (a : AudioControl) (out : list string)
  : bool * AudioControl * list string :=
  let '(a, out) :=
    if negb (recording a) then
      let a := with_server (server_call_on (RecStart filename) (server a)) a in
      (with_recording true a, out)
    else
      let a := with_server (server_call_on RecStop (server a)) a in
      (with_recording false a, out ++ ["Recording saved to " +:+ filename])
  in (recording a, a, out).

(** The C [int] of a float handed to [wx.Slider.SetValue], as a float
    still: [nan] is refused with [ValueError], and a float whose integer
    part is not within the range of an [int], as that of [inf],
    with [OverflowError]. *)
Definition as_int {S} (x : pyfloat) : M S Qc :=
  match x with
  | NaN => raise ValueError
  | Real v => if fits_int v then ret v else raise OverflowError
  end.

(** The body of the loop of [set_audio_params] (lines 245-253) for the
    row [f] at position [idx].  In [x[i].m(e)] Python looks up [x[i]]
    before it evaluates [e].  The calls on the oscillator convert fields
    that the calls on the controls have converted before them, to
    numbers they have taken ([float_number]). *)
Definition set_audio_row (idx : nat) (f : list cell) : M AudioControl unit :=
  (* self.freq[idx].SetValue(float(f[0])) *)
  a <- get ;;
  w <- of_option IndexError (freq a !! idx) ;;
  c <- of_option IndexError (f !! 0%nat) ;;
  x <- of_option ValueError (float c) ;;
  v <- of_option AssertionError (finite x) ;;
  modify (with_freq (<[idx := FloatSpin_SetValue v w]> (freq a))) ;;;
  (* self.mul[idx].SetValue(float(f[1])*100) *)
  a <- get ;;
  w <- of_option IndexError (mul a !! idx) ;;
  c <- of_option IndexError (f !! 1%nat) ;;
  x <- of_option ValueError (float c) ;;
  v <- as_int (pymul x q100) ;;
  modify (with_mul (<[idx := Slider_SetValue v w]> (mul a))) ;;;
  (* self.phase[idx].SetValue(float(f[2])*360) *)
  a <- get ;;
  w <- of_option IndexError (phase a !! idx) ;;
  c <- of_option IndexError (f !! 2%nat) ;;
  x <- of_option ValueError (float c) ;;
  v <- of_option AssertionError (finite (pymul x q360)) ;;
  modify (with_phase (<[idx := FloatSpin_SetValue v w]> (phase a))) ;;;
  (* self.func[idx].stop() *)
  a <- get ;;
  o <- of_option IndexError (func a !! idx) ;;
  modify (with_func (<[idx := stop o]> (func a))) ;;;
  (* self.func[idx].reset() *)
  a <- get ;;
  o <- of_option IndexError (func a !! idx) ;;
  modify (with_func (<[idx := reset o]> (func a))) ;;;
  (* self.func[idx].setFreq(float(f[0])) *)
  a <- get ;;
  o <- of_option IndexError (func a !! idx) ;;
  c <- of_option IndexError (f !! 0%nat) ;;
  x <- of_option ValueError (float_number c) ;;
  modify (with_func (<[idx := setFreq x o]> (func a))) ;;;
  (* self.func[idx].setMul(float(f[1])) *)
  a <- get ;;
  o <- of_option IndexError (func a !! idx) ;;
  c <- of_option IndexError (f !! 1%nat) ;;
  x <- of_option ValueError (float_number c) ;;
  modify (with_func (<[idx := setMul x o]> (func a))) ;;;
  (* self.func[idx].setPhase(float(f[2])) *)
  a <- get ;;
  o <- of_option IndexError (func a !! idx) ;;
  c <- of_option IndexError (f !! 2%nat) ;;
  x <- of_option ValueError (float_number c) ;;
  modify (with_func (<[idx := setPhase x o]> (func a))) ;;;
  (* self.func[idx].play() *)
  a <- get ;;
  o <- of_option IndexError (func a !! idx) ;;
  modify (with_func (<[idx := play o]> (func a))).

(** The loop [for idx, f in enumerate(funclist)], from position [idx]. *)
Fixpoint set_audio_rows (idx : nat) (funclist : list (list cell)) : M AudioControl unit :=
  match funclist with
  | [] => ret tt
  | f :: rest => set_audio_row idx f ;;; set_audio_rows (S idx) rest
  end.

(** [set_audio_params] (lines 242-254), for any iterable: an iteration
    that raises leaves the loop before the call of [reset_phase]. *)
Definition set_audio_params_of (funclist : iterable) : M AudioControl unit :=
  set_audio_rows 0 (it_rows funclist) ;;;
  (if it_error funclist then raise CsvError else ret tt) ;;;
  modify reset_phase.

(** [set_audio_params] for a list. *)
Definition set_audio_params (funclist : list (list cell)) : M AudioControl unit :=
  set_audio_params_of (mkIter funclist false).

(** [get_audio_params] (lines 257-260). *)
Definition get_audio_params (a : AudioControl) : list (Qc * Qc * Qc) :=
  map (fun f => (sine_freq f, sine_mul f, sine_phase f)) (func a).

(** ** class mainFrame *)

(** The attributes of a [mainFrame], with the two parts of the process
    environment its handlers act on: [stdout], the lines printed so far,
    and [disk], the files that [open] finds.  A timer is [Some ms] while
    it runs with period [ms]; a button is its label; [filelist] is [None]
    until [load_press] assigns the attribute. *)
Record mainFrame : Type := mkFrame {
  audio : AudioControl;
  graphing : bool;
  filelist : option (list string);
  multifile_timer : option Z;
  redraw_timer : option Z;
  startButton : string;
  recButton : string;
  grphButton : string;
  plot_data : list Qc * list Qc;
  stdout : list string;
  disk : gmap string file }.

Definition with_audio (x : AudioControl) (fr : mainFrame) : mainFrame :=
  mkFrame x (graphing fr) (filelist fr) (multifile_timer fr) (redraw_timer fr)
    (startButton fr) (recButton fr) (grphButton fr) (plot_data fr) (stdout fr) (disk fr).
Definition with_graphing (x : bool) (fr : mainFrame) : mainFrame :=
  mkFrame (audio fr) x (filelist fr) (multifile_timer fr) (redraw_timer fr)
    (startButton fr) (recButton fr) (grphButton fr) (plot_data fr) (stdout fr) (disk fr).
Definition with_filelist (x : option (list string)) (fr : mainFrame) : mainFrame :=
  mkFrame (audio fr) (graphing fr) x (multifile_timer fr) (redraw_timer fr)
    (startButton fr) (recButton fr) (grphButton fr) (plot_data fr) (stdout fr) (disk fr).
Definition with_multifile_timer (x : option Z) (fr : mainFrame) : mainFrame :=
  mkFrame (audio fr) (graphing fr) (filelist fr) x (redraw_timer fr)
    (startButton fr) (recButton fr) (grphButton fr) (plot_data fr) (stdout fr) (disk fr).
Definition with_startButton (x : string) (fr : mainFrame) : mainFrame :=
  mkFrame (audio fr) (graphing fr) (filelist fr) (multifile_timer fr) (redraw_timer fr)
    x (recButton fr) (grphButton fr) (plot_data fr) (stdout fr) (disk fr).
Definition with_recButton (x : string) (fr : mainFrame) : mainFrame :=
  mkFrame (audio fr) (graphing fr) (filelist fr) (multifile_timer fr) (redraw_timer fr)
    (startButton fr) x (grphButton fr) (plot_data fr) (stdout fr) (disk fr).
Definition with_grphButton (x : string) (fr : mainFrame) : mainFrame :=
  mkFrame (audio fr) (graphing fr) (filelist fr) (multifile_timer fr) (redraw_timer fr)
    (startButton fr) (recButton fr) x (plot_data fr) (stdout fr) (disk fr).
Definition with_plot_data (x : list Qc * list Qc) (fr : mainFrame) : mainFrame :=
  mkFrame (audio fr) (graphing fr) (filelist fr) (multifile_timer fr) (redraw_timer fr)
    (startButton fr) (recButton fr) (grphButton fr) x (stdout fr) (disk fr).
Definition with_stdout (x : list string) (fr : mainFrame) : mainFrame :=
  mkFrame (audio fr) (graphing fr) (filelist fr) (multifile_timer fr) (redraw_timer fr)
    (startButton fr) (recButton fr) (grphButton fr) (plot_data fr) x (disk fr).
Definition with_disk (x : gmap string file) (fr : mainFrame) : mainFrame :=
  mkFrame (audio fr) (graphing fr) (filelist fr) (multifile_timer fr) (redraw_timer fr)
    (startButton fr) (recButton fr) (grphButton fr) (plot_data fr) (stdout fr) x.

(** [print]: one more line on the console. *)
Definition print (line : string) : M mainFrame unit :=
  modify (fun fr => with_stdout (stdout fr ++ [line]) fr).

(** A method of [self.audio] run from a method of the frame. *)
Definition on_audio {A} (m : M AudioControl A) : M mainFrame A :=
  fun fr => let '(r, a) := m (audio fr) in (r, with_audio a fr).

(** [toggle_graph] (lines 425-434). *)
Definition toggle_graph (fr : mainFrame) : mainFrame :=
  if bool_decide (graphing fr = false) then
    let fr := with_graphing true fr in
    let fr := with_audio (start_buffer true (audio fr)) fr in
    with_grphButton "Pause Graph" fr
  else
    let fr := with_graphing false fr in
    let fr := with_audio (start_buffer false (audio fr)) fr in
    with_grphButton "Start Graph" fr.

(** [graph_press] (lines 420-422). *)
Definition graph_press (fr : mainFrame) : mainFrame := toggle_graph fr.

(** The frame as [init_graph] and [init_frame] leave it (lines 268-272),
    before [__init__] sets [graphing] and starts the graph: the plot holds
    the single point (0, 0), the redraw timer runs, the multi-file timer
    exists but was not started. *)
Definition constructed (d : gmap string file) : mainFrame :=
  mkFrame init_audio false None None (Some FRAMERATE)
    "Start" "Record WAV" "Pause Graph" ([0], [0]) [] d.

(** [mainFrame.__init__] (lines 266-274), in an environment with the
    files [d]. *)
Definition mainFrame_init (d : gmap string file) : mainFrame :=
  let fr := constructed d in
  let fr := with_graphing false fr in
  toggle_graph fr.

(** [refresh_plot] (lines 332-336). *)
Definition refresh_plot (Xdata Ydata : list Qc) (fr : mainFrame) : mainFrame :=
  with_plot_data (Xdata, Ydata) fr.

(** [save_press] (lines 339-349); [choice] is the path chosen in the
    dialog, or [None] when the dialog was cancelled. *)
Definition save_press (choice : option string) : M mainFrame unit :=
  match choice with
  | Some path =>
      fr <- get ;;
      let rows := map (fun r : Qc * Qc * Qc => [r.1.1; r.1.2; r.2])
                      (get_audio_params (audio fr)) in
      modify (with_disk (<[path := Written rows]> (disk fr))) ;;;
      print "File written"
  | None => ret tt
  end.

(** [start_next_file] (lines 390-398). *)
Definition start_next_file : M mainFrame unit :=
  fr <- get ;;
  l <- of_option AttributeError (filelist fr) ;;
  match l with
  | fname :: rest =>
      modify (with_filelist (Some rest)) ;;;
      f <- of_option IOError (disk fr !! fname) ;;
      on_audio (set_audio_params_of (reader f)) ;;;
      print ("File loaded " +:+ fname)
  | [] => ret tt
  end.

(** [load_press] (lines 352-368); [choice] is the list of paths chosen in
    the dialog, or [None] when the dialog was cancelled. *)
Definition load_press (choice : option (list string)) : M mainFrame unit :=
  match choice with
  | Some paths =>
      modify (with_filelist (Some paths)) ;;;
      (if bool_decide (1 < length paths)%nat then
         modify (with_multifile_timer (Some PLAY_TIME)) ;;;
         print (pretty (length paths) +:+ " files queued.")
       else ret tt) ;;;
      start_next_file
  | None => ret tt
  end.

(** [rec_press] (lines 371-377). *)
Definition rec_press (fr : mainFrame) : mainFrame :=
  let '(recording, a, out) := record "record.wav" (audio fr) (stdout fr) in
  let fr := with_stdout out (with_audio a fr) in
  if recording then with_recButton "Record Stop" fr
  else with_recButton "Record Start" fr.

(** [start_press] (lines 380-387). *)
Definition start_press (fr : mainFrame) : mainFrame :=
  if bool_decide (startButton fr = "Start") then
    let fr := with_startButton "Stop" fr in
    with_audio (enable_server true (audio fr)) fr
  else
    let fr := with_startButton "Start" fr in
    with_audio (enable_server false (audio fr)) fr.

(** [on_redraw_timer] (lines 401-406). *)
Definition on_redraw_timer (fr : mainFrame) : mainFrame :=
  if graphing fr then
    let '(Xdata, Ydata) := get_buffer_data (audio fr) in
    let fr := with_audio (start_buffer true (audio fr)) fr in
    refresh_plot Xdata Ydata fr
  else fr.

(** [on_multifile_timer] (lines 409-417). *)
Definition on_multifile_timer : M mainFrame unit :=
  fr <- get ;;
  l <- of_option AttributeError (filelist fr) ;;
  if bool_decide (length l <= 0)%nat then
    modify (with_multifile_timer None) ;;;
    modify (fun fr => with_audio (enable_server false (audio fr)) fr) ;;;
    modify (with_startButton "Start") ;;;
    print "Playback complete"
  else start_next_file.

(** The end of one period of the multi-file timer: the toolkit calls the
    handler bound to the timer if the timer runs, and nothing otherwise. *)
Definition multifile_period : M mainFrame unit :=
  fr <- get ;;
  match multifile_timer fr with
  | Some _ => on_multifile_timer
  | None => ret tt
  end.

(** ** The event loop *)

(** What the toolkit dispatches.  For the three kinds of controls the
    event carries the Id of the control and the value the user gave it:
    the control takes the value, or the end of its range that is nearest
    to it, and then calls the handler bound to it. *)
Inductive event : Type :=
| FreqSpun (ID : Z) (v : Qc)
| MulScrolled (ID : Z) (v : Z)
| PhaseSpun (ID : Z) (v : Qc)
| StartPressed
| RecPressed
| GraphPressed
| SavePressed (choice : option string)
| LoadPressed (choice : option (list string))
| RedrawPeriod
| MultifilePeriod.

(** A value given by the user, kept within the range of the control. *)
Definition FloatSpin_typed (v : Qc) (w : FloatSpin) : FloatSpin :=
  let v' := if Qcleb v (fs_min w) then fs_min w
            else if Qcleb (fs_max w) v then fs_max w else v in
  mkFloatSpin (fs_Id w) v' (fs_min w) (fs_max w).

Definition spin_to (ID : Z) (v : Qc) (l : list FloatSpin) : list FloatSpin :=
  map (fun w => if bool_decide (fs_Id w = ID) then FloatSpin_typed v w else w) l.

Definition slide_to (ID : Z) (v : Z) (l : list Slider) : list Slider :=
  map (fun w => if bool_decide (sl_Id w = ID) then Slider_SetValue (Qc_of_Z v) w else w) l.

Definition handle (ev : event) : M mainFrame unit :=
  match ev with
  | FreqSpun ID v =>
      on_audio (modify (fun a => with_freq (spin_to ID v (freq a)) a) ;;; fspin ID)
  | MulScrolled ID v =>
      on_audio (modify (fun a => with_mul (slide_to ID v (mul a)) a) ;;; mspin ID)
  | PhaseSpun ID v =>
      on_audio (modify (fun a => with_phase (spin_to ID v (phase a)) a) ;;;
                modify (phspin ID))
  | StartPressed => modify start_press
  | RecPressed => modify rec_press
  | GraphPressed => modify graph_press
  | SavePressed choice => save_press choice
  | LoadPressed choice => load_press choice
  | RedrawPeriod =>
      fr <- get ;;
      match redraw_timer fr with
      | Some _ => modify on_redraw_timer
      | None => ret tt
      end
  | MultifilePeriod => multifile_period
  end.

(** A run of the event loop: an exception that leaves a handler is
    reported by the toolkit and the loop goes on with the next event. *)
Fixpoint run (evs : list event) (fr : mainFrame) : mainFrame :=
  match evs with
  | [] => fr
  | ev :: evs' => run evs' (handle ev fr).2
  end.

(** ** The signal of a group *)

(** The sample an oscillator puts out when its unit sine wave has the
    value [w]: the wave scaled by the gain, silence when stopped.  The
    arithmetic of the audio engine is written without rounding. *)
Definition Sine_out (w : Qc) (f : Sine) : Qc :=
  if sine_playing f then sine_mul f * w else 0.

(** [pyo.Mix]: the sum of its inputs. *)
Fixpoint Mix_out (wave : nat -> Qc) (fs : list Sine) (inputs : list nat) : Qc :=
  match inputs with
  | [] => 0
  | i :: inputs' =>
      match fs !! i with
      | Some f => Sine_out (wave i) f + Mix_out wave fs inputs'
      | None => Mix_out wave fs inputs'
      end
  end.

(** The signal of a group: the mix of its oscillators, times the gain of
    its [Pan] object. *)
Definition group_out (wave : nat -> Qc) (a : AudioControl) (p : Pan) : Qc :=
  pan_mul p * Mix_out wave (func a) (pan_inputs p).

(** ** Predicates used in the statements *)

(** The lists of an [AudioControl] hold one entry per channel, and the
    phase spinners have the range 0-360 they are created with. *)
Record wf (a : AudioControl) : Prop := mk_wf {
  wf_freq : length (freq a) = CH_CNT;
  wf_mul : length (mul a) = CH_CNT;
  wf_phase : length (phase a) = CH_CNT;
  wf_func : length (func a) = CH_CNT;
  wf_phase_range : Forall (fun w => fs_min w = 0 /\ fs_max w = q360) (phase a) }.

(** The Id lists name the controls, and no Id is used twice. *)
Record ids_ok (a : AudioControl) : Prop := mk_ids_ok {
  ids_freq : freq_idlist a = map fs_Id (freq a);
  ids_mul : mul_idlist a = map sl_Id (mul a);
  ids_phase : phase_idlist a = map fs_Id (phase a);
  ids_nodup : NoDup (freq_idlist a ++ mul_idlist a ++ phase_idlist a) }.

(** The parameters kept by an oscillator, as [get_audio_params] lists
    them. *)
Definition params (f : Sine) : Qc * Qc * Qc :=
  (sine_freq f, sine_mul f, sine_phase f).


(** What the three controls of a channel take: a frequency that is
    finite, a gain whose hundredfold has an integer part within the
    range of a C [int], and a phase whose 360-fold is finite. *)
Definition takes (v : Qc * Qc * Qc) : bool :=
  is_finite v.1.1 && fits_int (fmul v.1.2 q100) && is_finite (fmul v.2 q360).

(** The three numbers of a row whose first three fields [float] makes
    numbers of that the controls take. *)
Definition row_values (f : list cell) : option (Qc * Qc * Qc) :=
  match f !! 0%nat, f !! 1%nat, f !! 2%nat with
  | Some c0, Some c1, Some c2 =>
      match float_number c0, float_number c1, float_number c2 with
      | Some x0, Some x1, Some x2 =>
          if takes (x0, x1, x2) then Some (x0, x1, x2) else None
      | _, _, _ => None
      end
  | _, _, _ => None
  end.


(** The phase kept by the oscillator of channel [i] is the one its
    spinner shows. *)
Definition in_sync_at (a : AudioControl) (i : nat) : Prop :=
  forall f w, func a !! i = Some f -> phase a !! i = Some w ->
    sine_phase f = fdiv (fs_value w) q360.

(** [record] called once for each file name of a list: the values
    returned, in order, and the object after the last call. *)
Fixpoint record_calls (names : list string) (a : AudioControl) (out : list string)
  : list bool * AudioControl * list string :=
  match names with
  | [] => ([], a, out)
  | n :: names' =>
      let '(b, a', out') := record n a out in
      let '(bs, a'', out'') := record_calls names' a' out' in
      (b :: bs, a'', out'')
  end.

Definition NL : string := String LF EmptyString.

(** The two-row file of the example. *)
Definition example_text : string :=
  "440.0,0.5,0.0" +:+ NL +:+ "880.0,0.25,0.5".

(** The oscillator bank after the file [fname] was read and handed to
    [set_audio_params], as far as that call got; unchanged when the file
    cannot be opened. *)
Definition loaded (fname : string) (fr : mainFrame) : AudioControl :=
  match disk fr !! fname with
  | Some f => (set_audio_params_of (reader f) (audio fr)).2
  | None => audio fr
  end.

(** [keeps R m s]: whatever [m] does from [s], normally or by raising,
    the object it leaves is related to [s] by [R]. *)
Definition keeps {S A} (R : S -> S -> Prop) (m : M S A) (s : S) : Prop :=
  forall r s', m s = (r, s') -> R s s'.

(** [same_but idx n a a']: [a'] differs from [a] at most in the values
    of the controls and the oscillators of the [n] channels from [idx]
    on. *)
Record same_but (idx n : nat) (a a' : AudioControl) : Prop := mk_same_but {
  sb_freq : forall j, ~ (idx <= j < idx + n)%nat -> freq a' !! j = freq a !! j;
  sb_mul : forall j, ~ (idx <= j < idx + n)%nat -> mul a' !! j = mul a !! j;
  sb_phase : forall j, ~ (idx <= j < idx + n)%nat -> phase a' !! j = phase a !! j;
  sb_func : forall j, ~ (idx <= j < idx + n)%nat -> func a' !! j = func a !! j;
  sb_freq_len : length (freq a') = length (freq a);
  sb_mul_len : length (mul a') = length (mul a);
  sb_phase_len : length (phase a') = length (phase a);
  sb_func_len : length (func a') = length (func a);
  sb_freq_ids : map fs_Id (freq a') = map fs_Id (freq a);
  sb_mul_ids : map sl_Id (mul a') = map sl_Id (mul a);
  sb_phase_ids : map fs_Id (phase a') = map fs_Id (phase a);
  sb_phase_range :
    map (fun w => (fs_min w, fs_max w)) (phase a') =
    map (fun w => (fs_min w, fs_max w)) (phase a);
  sb_rest :
    (freq_idlist a', mul_idlist a', phase_idlist a', Lch a', Rch a',
     recording a', table a', trig_tbl a', server a') =
    (freq_idlist a, mul_idlist a, phase_idlist a, Lch a, Rch a,
     recording a, table a, trig_tbl a, server a) }.

(** The two group objects are the same in [a] and [a']. *)
Definition same_groups (a a' : AudioControl) : Prop :=
  Lch a' = Lch a /\ Rch a' = Rch a.


(** The oscillator that a row with the values [v] leaves behind. *)
Definition sine_of_row (v : Qc * Qc * Qc) : Sine :=
  mkSine v.1.1 v.1.2 v.2 0 true.

(** What the loop body of [set_audio_params] makes of channel [idx] for
    a row with the values [v] (lemma [set_audio_row_ok]). *)
Definition row_applied (idx : nat) (v : Qc * Qc * Qc) (a : AudioControl) : AudioControl :=
  mkAudio (alter (FloatSpin_SetValue v.1.1) idx (freq a)) (freq_idlist a)
    (alter (FloatSpin_SetValue (fmul v.2 q360)) idx (phase a)) (phase_idlist a)
    (alter (Slider_SetValue (fmul v.1.2 q100)) idx (mul a)) (mul_idlist a)
    (<[idx := sine_of_row v]> (func a))
    (Lch a) (Rch a) (recording a) (table a) (trig_tbl a) (server a).

(** [b], not [b], [b], ... : [n] values in all. *)
Fixpoint alternating (b : bool) (n : nat) : list bool :=
  match n with
  | O => []
  | S n' => b :: alternating (negb b) n'
  end.

(** The call that [record] makes on the server when it returns [b]. *)
Definition rec_call (b : bool) (filename : string) : server_call :=
  if b then RecStart filename else RecStop.

(** ** Inputs of the examples *)

(** Seven rows, one more than there are channels. *)
Definition seven_rows : list (list cell) :=
  replicate 7 [Text "440.0"; Text "0.5"; Text "0.0"].




Definition one_row_text : string := "440.0,0.5,0.0".


(** A disk that holds the plain text [t] under the name [name], next to
    the files of [d]. *)
Definition with_text (name t : string) (d : gmap string file) : gmap string file :=
  match text_file t with
  | Some f => <[name := f]> d
  | None => d
  end.



(** Three files, and a frame with the server started and the first two
    files selected, the second still waiting in the queue. *)
Definition three_files : gmap string file :=
  with_text "a.csv" example_text
    (with_text "b.csv" one_row_text (with_text "c.csv" one_row_text ∅)).

Definition playing_two : mainFrame :=
  run [StartPressed; LoadPressed (Some ["a.csv"; "b.csv"])] (mainFrame_init three_files).

End Program.

(** * Properties *)

(** Equality and order of numbers, decided by evaluation. *)
Ltac qc_eq := apply Qc_is_canon; vm_compute; reflexivity.
Ltac qc_le := vm_compute; discriminate.

(** ** Stepping through a computation *)

Lemma get_Ok {S} (s x s1 : S) : get s = (Ok x, s1) -> x = s /\ s1 = s.
Proof. by intros [= <- <-]. Qed.

Lemma of_option_Ok {S A} e (o : option A) (s s1 : S) x :
  of_option e o s = (Ok x, s1) -> o = Some x /\ s1 = s.
Proof. destruct o; intros [= <- <-]; done. Qed.

Lemma modify_Ok {S} (f : S -> S) (s s1 : S) x :
  modify f s = (Ok x, s1) -> s1 = f s.
Proof. by intros [= <- <-]. Qed.

Lemma as_int_Ok {S} (x : pyfloat) (s s1 : S) v :
  as_int x s = (Ok v, s1) -> x = Real v /\ fits_int v = true /\ s1 = s.
Proof.
  destruct x as [y|]; simpl; [|done].
  destruct (fits_int y) eqn:E; intros [= <- <-]; done.
Qed.

Lemma keeps_bind {S A B} (R : S -> S -> Prop) `{!PreOrder R}
    (m : M S A) (k : A -> M S B) s :
  keeps R m s ->
  (forall x s1, m s = (Ok x, s1) -> keeps R (k x) s1) ->
  keeps R (bind m k) s.
Proof.
  intros Hm Hk r s'. unfold bind. destruct (m s) as [[x|e] s1] eqn:E.
  - intros H. etrans; [by eapply Hm|]. by eapply Hk.
  - intros [= <- <-]. by eapply Hm.
Qed.

Lemma keeps_get {S} (R : S -> S -> Prop) `{!PreOrder R} s : keeps R get s.
Proof. intros r s' [= <- <-]. done. Qed.

Lemma keeps_of_option {S A} (R : S -> S -> Prop) `{!PreOrder R} e (o : option A) s :
  keeps R (of_option e o) s.
Proof. intros r s'. destruct o; intros [= <- <-]; done. Qed.

Lemma keeps_ret {S A} (R : S -> S -> Prop) `{!PreOrder R} (x : A) s :
  keeps R (ret x) s.
Proof. intros r s' [= <- <-]. done. Qed.

Lemma keeps_modify {S} (R : S -> S -> Prop) (f : S -> S) s :
  R s (f s) -> keeps R (modify f) s.
Proof. intros H r s' [= <- <-]. done. Qed.

Lemma keeps_as_int {S} (R : S -> S -> Prop) `{!PreOrder R} (x : pyfloat) s :
  keeps R (as_int x) s.
Proof.
  intros r s'. destruct x as [y|]; simpl; [|by intros [= <- <-]].
  destruct (fits_int y); intros [= <- <-]; done.
Qed.

Lemma keeps_raise {S A} (R : S -> S -> Prop) `{!PreOrder R} e s :
  keeps R (raise (A := A) e) s.
Proof. intros r s' [= <- <-]. done. Qed.

Lemma keeps_weaken {S A} (R R' : S -> S -> Prop) (m : M S A) s :
  (forall s', R s s' -> R' s s') -> keeps R m s -> keeps R' m s.
Proof. intros HR Hm r s' E. apply HR. by eapply Hm. Qed.

(** One step of a proof of [keeps]; [tac] shows that a [modify] is within
    the relation. *)
Ltac keeps_step tac :=
  lazymatch goal with
  | |- keeps _ (bind get _) _ =>
      apply keeps_bind; [apply _ | apply keeps_get; apply _ |
        let x := fresh "a" in let s := fresh "s" in let H := fresh in
        intros x s H; apply get_Ok in H as [-> ->] ]
  | |- keeps _ (bind (of_option _ _) _) _ =>
      apply keeps_bind; [apply _ | apply keeps_of_option; apply _ |
        let x := fresh "x" in let s := fresh "s" in let H := fresh "E" in
        intros x s H; apply of_option_Ok in H as [H ->] ]
  | |- keeps _ (bind (as_int _) _) _ =>
      apply keeps_bind; [apply _ | apply keeps_as_int; apply _ |
        let x := fresh "x" in let s := fresh "s" in let H := fresh "E" in
        intros x s H; apply as_int_Ok in H as (_ & _ & ->) ]
  | |- keeps _ (bind (modify _) _) _ =>
      apply keeps_bind; [apply _ | apply keeps_modify; tac |
        let x := fresh "u" in let s := fresh "s" in let H := fresh in
        intros x s H; apply modify_Ok in H as -> ]
  | |- keeps _ (modify _) _ => apply keeps_modify; tac
  | |- keeps _ (ret _) _ => apply keeps_ret; apply _
  | |- keeps _ (of_option _ _) _ => apply keeps_of_option; apply _
  end.

(** ** Lists updated in place *)

Lemma insert_alter_lookup {A} (f : A -> A) (l : list A) i x :
  l !! i = Some x -> <[i := f x]> l = alter f i l.
Proof.
  intros H. apply list_eq. intros j. destruct (decide (i = j)) as [->|Hne].
  - rewrite list_lookup_insert_eq by (eapply lookup_lt_Some; eauto).
    rewrite list_lookup_alter_eq, H. done.
  - rewrite list_lookup_insert_ne, list_lookup_alter_ne by done. done.
Qed.

Lemma map_insert_same {A B} (g : A -> B) (l : list A) i x y :
  l !! i = Some x -> g y = g x -> map g (<[i := y]> l) = map g l.
Proof.
  intros H Hg. change (g <$> <[i := y]> l = g <$> l).
  rewrite list_fmap_insert, Hg. apply list_insert_id.
  rewrite list_lookup_fmap, H. done.
Qed.

Lemma FloatSpin_SetValue_Id v w : fs_Id (FloatSpin_SetValue v w) = fs_Id w.
Proof. unfold FloatSpin_SetValue. by destruct (InRange v w). Qed.

Lemma FloatSpin_SetValue_range v w :
  (fs_min (FloatSpin_SetValue v w), fs_max (FloatSpin_SetValue v w))
  = (fs_min w, fs_max w).
Proof. unfold FloatSpin_SetValue. by destruct (InRange v w). Qed.

(** ** Order and arithmetic of the rationals *)

Lemma Qcleb_le x y : Qcleb x y = true <-> x <= y.
Proof. unfold Qcleb, Qcle. apply Qle_bool_iff. Qed.

Lemma q360_pos : 0 < q360.
Proof. reflexivity. Qed.

Lemma q100_pos : 0 < q100.
Proof. reflexivity. Qed.

Lemma Qcdiv_le_mono (x y c : Qc) : 0 < c -> x <= y -> x / c <= y / c.
Proof.
  intros Hc H. unfold Qcdiv. apply Qcmult_le_compat_r; [done|].
  apply Qclt_le_weak. by apply Qcinv_pos.
Qed.

Lemma Qc_of_Z_le (x y : Z) : (x <= y)%Z -> Qc_of_Z x <= Qc_of_Z y.
Proof.
  intros H. unfold Qcle. change (inject_Z x <= inject_Z y)%Q. by rewrite <- Zle_Qle.
Qed.

(** ** Rounding to 53 bits *)

Lemma rne_comp (q1 q2 : Q) : (q1 == q2)%Q -> rne q1 = rne q2.
Proof.
  intros H. unfold rne. rewrite (Qfloor_comp _ _ H).
  assert (E : (q1 - inject_Z (Qfloor q2) ?= 1 # 2)%Q = (q2 - inject_Z (Qfloor q2) ?= 1 # 2)%Q).
  { apply Qcompare_comp; [|reflexivity]. by rewrite H. }
  by rewrite E.
Qed.

Lemma rne_bounds (q : Q) : (Qfloor q <= rne q <= Qfloor q + 1)%Z.
Proof.
  unfold rne. destruct (Qcompare _ _); [destruct (Z.even _)| |]; lia.
Qed.

Lemma rne_inject_Z (z : Z) : rne (inject_Z z) = z.
Proof.
  unfold rne. rewrite Qfloor_Z.
  destruct (Qcompare_spec (inject_Z z - inject_Z z) (1 # 2)); [lra | done | lra].
Qed.

Lemma rne_mono (q1 q2 : Q) : (q1 <= q2)%Q -> (rne q1 <= rne q2)%Z.
Proof.
  intros H. pose proof (Qfloor_resp_le _ _ H) as Hf.
  pose proof (rne_bounds q1). pose proof (rne_bounds q2).
  destruct (decide (Qfloor q1 = Qfloor q2)) as [E|]; [|lia].
  unfold rne in *. rewrite <- E in *.
  destruct (Qcompare_spec (q1 - inject_Z (Qfloor q1)) (1 # 2));
    destruct (Qcompare_spec (q2 - inject_Z (Qfloor q1)) (1 # 2));
    try (destruct (Z.even (Qfloor q1))); try lia; lra.
Qed.

(** ** The fixed point of a [FloatSpin] *)


Lemma fix20_Z (n : Z) : fix20 (Qc_of_Z n) = Qc_of_Z n.
Proof.
  unfold fix20. apply Qc_is_canon. simpl. rewrite Qred_correct.
  assert (E : (inject_Z n * inject_Z (10 ^ 20) == inject_Z (n * 10 ^ 20))%Q)
    by (by rewrite inject_Z_mult).
  rewrite (rne_comp _ _ E), rne_inject_Z, inject_Z_mult. field. done.
Qed.


Lemma pow2_pos (k : Z) : (0 < 2 ^ k)%Q.
Proof. by apply Qpower_0_lt. Qed.

Lemma pow2_plus (a b : Z) : (2 ^ (a + b) == 2 ^ a * 2 ^ b)%Q.
Proof. by apply Qpower_plus. Qed.

Lemma pow2_succ (a : Z) : (2 ^ (a + 1) == 2 * 2 ^ a)%Q.
Proof. rewrite pow2_plus. change (2 ^ 1)%Q with (2 * 1)%Q. lra. Qed.

Lemma inject_pow2 (a : Z) : (0 <= a)%Z -> (inject_Z (2 ^ a) == 2 ^ a)%Q.
Proof. intros H. by rewrite (Zpower_Qpower 2 a H). Qed.

Lemma log2_bounds (n : positive) :
  (2 ^ Z.log2 (Z.pos n) <= inject_Z (Z.pos n)
   /\ inject_Z (Z.pos n) < 2 * 2 ^ Z.log2 (Z.pos n))%Q.
Proof.
  destruct (Z.log2_spec (Z.pos n)) as [H1 H2]; [done|].
  pose proof (Z.log2_nonneg (Z.pos n)) as H0.
  rewrite <- pow2_succ, <- !inject_pow2 by lia. split.
  - by rewrite <- Zle_Qle.
  - by rewrite <- Zlt_Qlt.
Qed.

Lemma Qmake_div (n : Z) (d : positive) : (n # d == inject_Z n / inject_Z (Z.pos d))%Q.
Proof. apply Qmake_Qdiv. Qed.

(** The test of [binade] compares 2^e0 with n/d. *)
Lemma binade_test (n d : positive) (e0 : Z) :
  (match e0 with
   | Z.neg k => (Z.pos d <=? Z.pos n * 2 ^ Z.pos k)%Z
   | _ => (Z.pos d * 2 ^ e0 <=? Z.pos n)%Z
   end) = true <->
  (2 ^ e0 * inject_Z (Z.pos d) <= inject_Z (Z.pos n))%Q.
Proof.
  destruct e0 as [|k|k].
  - rewrite Z.leb_le. change (2 ^ 0)%Q with 1%Q. rewrite Zle_Qle.
    rewrite inject_Z_mult. change (inject_Z (2 ^ 0)) with 1%Q. split; intros; lra.
  - rewrite Z.leb_le, Zle_Qle, inject_Z_mult, inject_pow2 by lia.
    split; intros; lra.
  - rewrite Z.leb_le, Zle_Qle, inject_Z_mult, inject_pow2 by lia.
    change (Z.neg k) with (- Z.pos k)%Z. rewrite Qpower_opp.
    pose proof (pow2_pos (Z.pos k)) as Hp.
    split; intros H.
    + apply (Qmult_le_l _ _ (2 ^ Z.pos k)); [done|]. 
      rewrite Qmult_assoc, Qmult_inv_r by lra. lra.
    + apply (Qmult_le_l _ _ (2 ^ Z.pos k)) in H; [|done].
      rewrite Qmult_assoc, Qmult_inv_r in H by lra. lra.
Qed.

Lemma binade_spec (n d : positive) :
  (2 ^ binade n d <= Z.pos n # d /\ Z.pos n # d < 2 ^ (binade n d + 1))%Q.
Proof.
  unfold binade.
  set (a := Z.log2 (Z.pos n)). set (b := Z.log2 (Z.pos d)).
  destruct (log2_bounds n) as [Ha1 Ha2]. destruct (log2_bounds d) as [Hb1 Hb2].
  fold a in Ha1, Ha2. fold b in Hb1, Hb2.
  set (N := inject_Z (Z.pos n)) in *. set (D := inject_Z (Z.pos d)) in *.
  assert (HD : (0 < D)%Q) by (pose proof (pow2_pos b); lra).
  assert (HE : (2 ^ a == 2 ^ (a - b) * 2 ^ b)%Q).
  { rewrite <- pow2_plus. by replace (a - b + b)%Z with a by lia. }
  pose proof (pow2_pos (a - b)) as HEp. pose proof (pow2_pos b) as HBp.
  assert (Hx : forall c : Q, (c * D <= N <-> c <= Z.pos n # d)%Q).
  { intros c. rewrite Qmake_div. fold N D. split; intros H.
    - apply Qle_shift_div_l; done.
    - apply (Qmult_le_r _ _ D) in H; [|done].
      unfold Qdiv in H. rewrite <- Qmult_assoc, (Qmult_comm (/ D)), Qmult_inv_r in H by lra.
      lra. }
  assert (Hy : forall c : Q, (N < c * D <-> Z.pos n # d < c)%Q).
  { intros c. rewrite Qmake_div. fold N D. split; intros H.
    - apply Qlt_shift_div_r; done.
    - apply (Qmult_lt_r _ _ D) in H; [|done].
      unfold Qdiv in H. rewrite <- Qmult_assoc, (Qmult_comm (/ D)), Qmult_inv_r in H by lra.
      lra. }
  destruct (match (a - b)%Z with
            | Z.neg k => (Z.pos d <=? Z.pos n * 2 ^ Z.pos k)%Z
            | _ => (Z.pos d * 2 ^ (a - b) <=? Z.pos n)%Z
            end) eqn:T.
  - apply binade_test in T. fold N D in T. split.
    + by apply Hx.
    + apply Hy. rewrite pow2_succ.
      assert ((2 ^ (a - b) * 2 ^ b <= 2 ^ (a - b) * D)%Q) by (apply Qmult_le_l; done).
      lra.
  - assert (T' : ~ (2 ^ (a - b) * D <= N)%Q).
    { intros H. apply binade_test in H. congruence. }
    split.
    + apply Hx.
      assert (Hh : (2 ^ (a - b) == 2 * 2 ^ (a - b - 1))%Q).
      { rewrite <- pow2_succ. by replace (a - b - 1 + 1)%Z with (a - b)%Z by lia. }
      pose proof (pow2_pos (a - b - 1)) as Hhp.
      assert ((2 ^ (a - b - 1) * D <= 2 ^ (a - b - 1) * (2 * 2 ^ b))%Q)
        by (apply Qmult_le_l; [done | lra]).
      rewrite Hh in HE. lra.
    + apply Hy. replace (a - b - 1 + 1)%Z with (a - b)%Z by lia. lra.
Qed.

(** Rounding to the multiples of 2^k. *)
Lemma round_at_comp (k : Z) (q1 q2 : Q) :
  (q1 == q2)%Q -> (round_at k q1 == round_at k q2)%Q.
Proof.
  intros H. unfold round_at.
  assert (E : (q1 / 2 ^ k == q2 / 2 ^ k)%Q) by (by rewrite H).
  by rewrite (rne_comp _ _ E).
Qed.

Lemma round_at_mono (k : Z) (q1 q2 : Q) :
  (q1 <= q2)%Q -> (round_at k q1 <= round_at k q2)%Q.
Proof.
  intros H. unfold round_at. pose proof (pow2_pos k) as Hk.
  apply Qmult_le_compat_r; [|lra]. rewrite <- Zle_Qle. apply rne_mono.
  apply Qmult_le_compat_r; [done|]. apply Qlt_le_weak, Qinv_lt_0_compat. done.
Qed.

(** A multiple of 2^j is a multiple of 2^k for k <= j, and its own
    rounding. *)
Lemma round_at_grid (k j m : Z) :
  (k <= j)%Z -> (round_at k (inject_Z m * 2 ^ j) == inject_Z m * 2 ^ j)%Q.
Proof.
  intros Hkj. unfold round_at. pose proof (pow2_pos k) as Hkp.
  assert (Hjk : (2 ^ j == 2 ^ (j - k) * 2 ^ k)%Q).
  { rewrite <- pow2_plus. by replace (j - k + k)%Z with j by lia. }
  assert (Hy : (inject_Z m * 2 ^ j / 2 ^ k == inject_Z (m * 2 ^ (j - k)))%Q).
  { rewrite Hjk, inject_Z_mult, inject_pow2 by lia. field. lra. }
  rewrite (rne_comp _ _ Hy), rne_inject_Z, inject_Z_mult, inject_pow2 by lia.
  rewrite Hjk. ring.
Qed.

Lemma round_at_pow2 (k b : Z) : (k <= b)%Z -> (round_at k (2 ^ b) == 2 ^ b)%Q.
Proof.
  intros H.
  assert (E : (2 ^ b == inject_Z 1 * 2 ^ b)%Q) by (change (inject_Z 1) with 1%Q; ring).
  rewrite (round_at_comp k _ _ E), (round_at_grid k b 1 H). by rewrite <- E.
Qed.

Lemma round_at_0 (k : Z) : (round_at k 0 == 0)%Q.
Proof.
  assert (E : (0 == inject_Z 0 * 2 ^ k)%Q) by (change (inject_Z 0) with 0%Q; ring).
  rewrite (round_at_comp k _ _ E), (round_at_grid k k 0) by lia. by rewrite <- E.
Qed.

Lemma binade_mono (n1 d1 n2 d2 : positive) :
  (Z.pos n1 # d1 <= Z.pos n2 # d2)%Q -> (binade n1 d1 <= binade n2 d2)%Z.
Proof.
  intros H.
  destruct (binade_spec n1 d1) as [Ha1 _]. destruct (binade_spec n2 d2) as [_ Hb2].
  assert (Hp : (2 ^ binade n1 d1 < 2 ^ (binade n2 d2 + 1))%Q) by lra.
  apply Qpower_lt_compat_l_inv in Hp; [lia | lra].
Qed.

Lemma round53_nonneg (n d : positive) : (0 <= round53 n d)%Q.
Proof.
  unfold round53. rewrite <- (round_at_0 (Z.max (binade n d - 52) (-1074))).
  apply round_at_mono. done.
Qed.

Lemma round53_mono (n1 d1 n2 d2 : positive) :
  (Z.pos n1 # d1 <= Z.pos n2 # d2)%Q -> (round53 n1 d1 <= round53 n2 d2)%Q.
Proof.
  intros H. pose proof (binade_mono _ _ _ _ H) as Hb.
  destruct (binade_spec n1 d1) as [_ Ha2]. destruct (binade_spec n2 d2) as [Hb1 _].
  unfold round53.
  set (k1 := Z.max (binade n1 d1 - 52) (-1074)).
  set (k2 := Z.max (binade n2 d2 - 52) (-1074)).
  destruct (decide (k1 = k2)) as [E|Hne].
  - rewrite E. by apply round_at_mono.
  - assert (Hlt : (binade n1 d1 < binade n2 d2)%Z) by lia.
    assert (Hk2 : (k2 <= binade n2 d2)%Z) by lia.
    assert (Hk1 : (k1 <= binade n2 d2)%Z) by lia.
    assert (Hq : (Z.pos n1 # d1 <= 2 ^ binade n2 d2)%Q).
    { assert ((2 ^ (binade n1 d1 + 1) <= 2 ^ binade n2 d2)%Q)
        by (apply Qpower_le_compat_l; [lia | lra]).
      lra. }
    apply (round_at_mono k1) in Hq. rewrite (round_at_pow2 k1 _ Hk1) in Hq.
    apply (round_at_mono k2) in Hb1. rewrite (round_at_pow2 k2 _ Hk2) in Hb1.
    lra.
Qed.

Lemma this_Q2Qc_le (q : Q) (x : Qc) : (q <= x)%Q -> Q2Qc q <= x.
Proof. intros H. unfold Qcle. simpl. by rewrite Qred_correct. Qed.

Lemma this_le_Q2Qc (q : Q) (x : Qc) : (x <= q)%Q -> x <= Q2Qc q.
Proof. intros H. unfold Qcle. simpl. by rewrite Qred_correct. Qed.

Lemma round_b64_mono (x y : Qc) : x <= y -> round_b64 x <= round_b64 y.
Proof.
  unfold Qcle, round_b64. destruct x as [[nx dx] Hx], y as [[ny dy] Hy]. simpl.
  intros H.
  destruct nx as [|a|a], ny as [|b|b]; simpl; rewrite ?Qred_correct.
  - done.
  - pose proof (round53_nonneg b dy).
    assert (Hz : (0 # dx == 0)%Q) by done. rewrite Hz. lra.
  - unfold Qle in H; simpl in H. lia.
  - unfold Qle in H; simpl in H. lia.
  - by apply round53_mono.
  - unfold Qle in H; simpl in H. lia.
  - pose proof (round53_nonneg a dx) as Hp.
    assert (Hz : (0 # dy == 0)%Q) by done. rewrite Hz. lra.
  - pose proof (round53_nonneg a dx). pose proof (round53_nonneg b dy). lra.
  - assert (Hba : (Z.pos b # dy <= Z.pos a # dx)%Q)
      by (unfold Qle in *; simpl in *; lia).
    apply round53_mono in Hba. lra.
Qed.

(** A positive number n * 2^j with n below 2^53 and j not below -1074 is
    its own rounding. *)
Lemma round53_repr (a d n : positive) (j : Z) :
  (Z.pos a # d == inject_Z (Z.pos n) * 2 ^ j)%Q -> (Z.pos n < 2 ^ 53)%Z ->
  (-1074 <= j)%Z ->
  (round53 a d == Z.pos a # d)%Q.
Proof.
  intros Hx Hn Hj0. destruct (binade_spec a d) as [H1 _].
  pose proof (pow2_pos j) as Hj.
  assert (He : (binade a d < 53 + j)%Z).
  { apply (Qpower_lt_compat_l_inv 2); [|lra].
    rewrite Zlt_Qlt, inject_pow2 in Hn by done.
    rewrite pow2_plus.
    assert ((inject_Z (Z.pos n) * 2 ^ j < 2 ^ 53 * 2 ^ j)%Q)
      by (apply Qmult_lt_compat_r; done).
    lra. }
  unfold round53. rewrite (round_at_comp _ _ _ Hx), Hx.
  apply round_at_grid. lia.
Qed.

Lemma this_repr (n j : Z) : (repr n j == inject_Z n * 2 ^ j)%Q.
Proof. unfold repr. simpl. apply Qred_correct. Qed.

Lemma round_b64_repr (n j : Z) :
  (Z.abs n < 2 ^ 53)%Z -> (-1074 <= j)%Z -> round_b64 (repr n j) = repr n j.
Proof.
  intros Hn Hj0. pose proof (this_repr n j) as Hx. pose proof (pow2_pos j) as Hj.
  unfold round_b64.
  destruct (repr n j) as [[a d] Hc] eqn:E. simpl in Hx |- *.
  destruct a as [|a|a]; [done| |].
  - apply Qc_is_canon. simpl. rewrite Qred_correct.
    destruct n as [|n|n].
    + exfalso. assert ((Z.pos a # d) == 0)%Q by (rewrite Hx; ring). done.
    + eapply round53_repr; [exact Hx | lia | done].
    + exfalso. assert (H0 : (0 < Z.pos a # d)%Q) by done.
      assert (Hneg : (inject_Z (Z.neg n) < 0)%Q) by done.
      rewrite Hx in H0.
      assert ((inject_Z (Z.neg n) * 2 ^ j < 0 * 2 ^ j)%Q)
        by (apply Qmult_lt_compat_r; done).
      lra.
  - apply Qc_is_canon. simpl. rewrite Qred_correct.
    destruct n as [|n|n].
    + exfalso. assert ((Z.neg a # d) == 0)%Q by (rewrite Hx; ring). done.
    + exfalso. assert (H0 : (Z.neg a # d < 0)%Q) by done.
      assert (Hpos : (0 < inject_Z (Z.pos n))%Q) by done.
      rewrite Hx in H0.
      assert ((0 * 2 ^ j < inject_Z (Z.pos n) * 2 ^ j)%Q)
        by (apply Qmult_lt_compat_r; done).
      lra.
    + assert (Hx' : (Z.pos a # d == inject_Z (Z.pos n) * 2 ^ j)%Q).
      { assert (Ha : (Z.pos a # d == - (Z.neg a # d))%Q) by done.
        assert (Hb : (inject_Z (Z.pos n) == - inject_Z (Z.neg n))%Q) by done.
        rewrite Ha, Hx, Hb. ring. }
      rewrite (round53_repr a d n j Hx') by (done || lia). done.
Qed.

Lemma Qc_of_Z_repr (n : Z) : Qc_of_Z n = repr n 0.
Proof.
  apply Qc_is_canon. rewrite this_repr. change (2 ^ 0)%Q with 1%Q.
  change (this (Qc_of_Z n)) with (inject_Z n). ring.
Qed.


Lemma binary64_laws : RoundingLaws binary64.
Proof. split; [apply round_b64_mono | apply round_b64_repr]. Qed.

Section Generic.
Context `{fl : Rounding}.

(** ** What a row touches *)

Lemma same_but_refl idx n a : same_but idx n a a.
Proof. by constructor. Qed.

Lemma same_but_trans idx n a b c :
  same_but idx n a b -> same_but idx n b c -> same_but idx n a c.
Proof.
  intros [] []. constructor; intros; try congruence.
  - rewrite sb_freq1, sb_freq0; done.
  - rewrite sb_mul1, sb_mul0; done.
  - rewrite sb_phase1, sb_phase0; done.
  - rewrite sb_func1, sb_func0; done.
Qed.

Global Instance same_but_preorder idx n : PreOrder (same_but idx n).
Proof.
  split; [intros a; apply same_but_refl | intros a b c; apply same_but_trans].
Qed.

Lemma same_but_weaken idx n idx' n' a b :
  (forall j, (idx <= j < idx + n)%nat -> (idx' <= j < idx' + n')%nat) ->
  same_but idx n a b -> same_but idx' n' a b.
Proof. intros Hsub []. constructor; auto. Qed.

Lemma same_but_freq idx a w y :
  freq a !! idx = Some w -> fs_Id y = fs_Id w ->
  same_but idx 1 a (with_freq (<[idx := y]> (freq a)) a).
Proof.
  intros H Hy. constructor; simpl; try done.
  - intros j Hj. apply list_lookup_insert_ne. lia.
  - apply length_insert.
  - eapply map_insert_same; eauto.
Qed.

Lemma same_but_phase idx a w y :
  phase a !! idx = Some w -> fs_Id y = fs_Id w ->
  (fs_min y, fs_max y) = (fs_min w, fs_max w) ->
  same_but idx 1 a (with_phase (<[idx := y]> (phase a)) a).
Proof.
  intros H Hy Hr. constructor; simpl; try done.
  - intros j Hj. apply list_lookup_insert_ne. lia.
  - apply length_insert.
  - eapply map_insert_same; eauto.
  - eapply (map_insert_same (fun w => (fs_min w, fs_max w))); eauto.
Qed.

Lemma same_but_mul idx a w y :
  mul a !! idx = Some w -> sl_Id y = sl_Id w ->
  same_but idx 1 a (with_mul (<[idx := y]> (mul a)) a).
Proof.
  intros H Hy. constructor; simpl; try done.
  - intros j Hj. apply list_lookup_insert_ne. lia.
  - apply length_insert.
  - eapply map_insert_same; eauto.
Qed.

Lemma same_but_func idx a y :
  same_but idx 1 a (with_func (<[idx := y]> (func a)) a).
Proof.
  constructor; simpl; try done.
  - intros j Hj. apply list_lookup_insert_ne. lia.
  - apply length_insert.
Qed.

Ltac same_but_tac :=
  first [ apply same_but_func
        | eapply same_but_freq; [eassumption | apply FloatSpin_SetValue_Id]
        | eapply same_but_phase;
            [eassumption | apply FloatSpin_SetValue_Id | apply FloatSpin_SetValue_range]
        | eapply same_but_mul; [eassumption | reflexivity] ].

Lemma set_audio_row_same_but idx f a :
  keeps (same_but idx 1) (set_audio_row idx f) a.
Proof. unfold set_audio_row. repeat keeps_step same_but_tac. Qed.

Lemma set_audio_rows_same_but rows : forall idx a,
  keeps (same_but idx (length rows)) (set_audio_rows idx rows) a.
Proof.
  induction rows as [|f rows IH]; intros idx a; simpl.
  - apply keeps_ret; apply _.
  - apply keeps_bind; [apply _ | |].
    + eapply keeps_weaken; [|apply set_audio_row_same_but].
      intros s'. apply same_but_weaken. lia.
    + intros _ s1 _. eapply keeps_weaken; [|apply IH].
      intros s'. apply same_but_weaken. lia.
Qed.

Lemma wf_same_but idx n a a' : wf a -> same_but idx n a a' -> wf a'.
Proof.
  intros [] []. constructor; try congruence.
  apply Forall_lookup. intros j w' Hj.
  assert (Hm : map (fun w => (fs_min w, fs_max w)) (phase a') !! j
               = Some (fs_min w', fs_max w'))
    by (change (((fun w => (fs_min w, fs_max w)) <$> phase a') !! j = Some (fs_min w', fs_max w'));
        by rewrite list_lookup_fmap, Hj).
  rewrite sb_phase_range0 in Hm.
  change (((fun w => (fs_min w, fs_max w)) <$> phase a) !! j = Some (fs_min w', fs_max w')) in Hm.
  rewrite list_lookup_fmap in Hm.
  destruct (phase a !! j) as [w|] eqn:E; [|done].
  injection Hm as <- <-. eapply Forall_lookup in wf_phase_range0; eauto.
Qed.

Lemma float_number_Some c x : float_number c = Some x <-> float c = Some (Real x).
Proof.
  unfold float_number. destruct (float c) as [[y|]|]; simpl; split; congruence.
Qed.

(** A row with values: its fields, and what the controls check. *)
Lemma row_values_Some f v :
  row_values f = Some v ->
  exists c0 c1 c2,
    (f !! 0%nat = Some c0 /\ f !! 1%nat = Some c1 /\ f !! 2%nat = Some c2) /\
    (float c0 = Some (Real v.1.1) /\ float c1 = Some (Real v.1.2) /\
     float c2 = Some (Real v.2)) /\
    is_finite v.1.1 = true /\ fits_int (fmul v.1.2 q100) = true /\
    is_finite (fmul v.2 q360) = true.
Proof.
  unfold row_values. intros Hv.
  destruct (f !! 0%nat) as [c0|] eqn:E0; [|done].
  destruct (f !! 1%nat) as [c1|] eqn:E1; [|done].
  destruct (f !! 2%nat) as [c2|] eqn:E2; [|done].
  destruct (float_number c0) as [x0|] eqn:F0; [|done].
  destruct (float_number c1) as [x1|] eqn:F1; [|done].
  destruct (float_number c2) as [x2|] eqn:F2; [|done].
  destruct (takes (x0, x1, x2)) eqn:T; [|done]. injection Hv as <-.
  unfold takes in T. simpl in T. apply andb_prop in T as [T T2].
  apply andb_prop in T as [T0 T1].
  apply float_number_Some in F0, F1, F2.
  exists c0, c1, c2. done.
Qed.

Lemma set_audio_row_ok idx f a v w1 w2 w3 o :
  freq a !! idx = Some w1 -> mul a !! idx = Some w2 ->
  phase a !! idx = Some w3 -> func a !! idx = Some o ->
  row_values f = Some v ->
  set_audio_row idx f a = (Ok tt, row_applied idx v a).
Proof.
  intros H1 H2 H3 H4 Hv.
  destruct (row_values_Some f v Hv)
    as (c0 & c1 & c2 & (E0 & E1 & E2) & (F0 & F1 & F2) & T0 & T1 & T2).
  assert (Hlt : (idx < length (func a))%nat) by (eapply lookup_lt_Some; eauto).
  unfold set_audio_row, as_int, float_number, bind, get, modify, of_option, ret, raise.
  simpl.
  rewrite H1, E0, F0. simpl. rewrite T0. simpl.
  rewrite H2, E1, F1. simpl. rewrite T1. simpl.
  rewrite H3, E2, F2. simpl. rewrite T2. simpl.
  rewrite H4. simpl.
  repeat (rewrite list_lookup_insert_eq by (rewrite ?length_insert; done); simpl;
          rewrite ?E0, ?E1, ?E2, ?F0, ?F1, ?F2; simpl).
  f_equal. unfold row_applied.
  rewrite !list_insert_insert_eq.
  rewrite (insert_alter_lookup _ _ _ _ H1), (insert_alter_lookup _ _ _ _ H2),
    (insert_alter_lookup _ _ _ _ H3).
  reflexivity.
Qed.

Lemma wf_lookups a idx :
  wf a -> (idx < CH_CNT)%nat ->
  exists w1 w2 w3 o,
    freq a !! idx = Some w1 /\ mul a !! idx = Some w2 /\
    phase a !! idx = Some w3 /\ func a !! idx = Some o.
Proof.
  intros [] Hlt.
  destruct (lookup_lt_is_Some_2 (freq a) idx) as [w1 ?]; [lia|].
  destruct (lookup_lt_is_Some_2 (mul a) idx) as [w2 ?]; [lia|].
  destruct (lookup_lt_is_Some_2 (phase a) idx) as [w3 ?]; [lia|].
  destruct (lookup_lt_is_Some_2 (func a) idx) as [o ?]; [lia|].
  eauto 10.
Qed.

(** A row beyond the last channel: the look-up of its frequency spinner
    raises, and nothing was changed. *)
Lemma set_audio_row_beyond idx f a :
  (length (freq a) <= idx)%nat ->
  set_audio_row idx f a = (Raise IndexError, a).
Proof.
  intros H. unfold set_audio_row, bind, get, of_option. simpl.
  rewrite (lookup_ge_None_2 _ _ H). reflexivity.
Qed.

Lemma set_audio_row_Ok_lt idx f a u a' :
  set_audio_row idx f a = (Ok u, a') -> (idx < length (freq a))%nat.
Proof.
  intros H. destruct (decide (idx < length (freq a))%nat) as [|Hge]; [done|].
  rewrite set_audio_row_beyond in H by lia. discriminate.
Qed.

Lemma set_audio_rows_Ok_le rows : forall idx a u a',
  set_audio_rows idx rows a = (Ok u, a') ->
  (idx + length rows <= max idx (length (freq a)))%nat.
Proof.
  induction rows as [|f rows IH]; intros idx a u a' H; simpl in *; [lia|].
  unfold bind in H. destruct (set_audio_row idx f a) as [[[]|e] a1] eqn:E; [|done].
  apply set_audio_row_Ok_lt in E as Hlt.
  apply set_audio_row_same_but in E as [].
  apply IH in H. lia.
Qed.

Lemma set_audio_rows_app l1 l2 idx :
  forall a, set_audio_rows idx (l1 ++ l2) a
  = (set_audio_rows idx l1 ;;; set_audio_rows (idx + length l1) l2) a.
Proof.
  revert idx. induction l1 as [|f l1 IH]; intros idx a; simpl.
  - unfold bind, ret. by rewrite Nat.add_0_r.
  - unfold bind. destruct (set_audio_row idx f a) as [[[]|e] a1]; [|done].
    rewrite IH. unfold bind. by rewrite Nat.add_succ_r.
Qed.

(** The rows that [float] accepts, applied from channel [idx] on. *)
Lemma set_audio_rows_spec rows : forall vs idx a,
  wf a -> Forall2 (fun f v => row_values f = Some v) rows vs ->
  (idx + length rows <= CH_CNT)%nat ->
  exists a',
    set_audio_rows idx rows a = (Ok tt, a') /\
    same_but idx (length rows) a a' /\
    forall j v, vs !! j = Some v ->
      func a' !! (idx + j)%nat = Some (sine_of_row v) /\
      freq a' !! (idx + j)%nat = FloatSpin_SetValue v.1.1 <$> freq a !! (idx + j)%nat /\
      mul a' !! (idx + j)%nat = Slider_SetValue (fmul v.1.2 q100) <$> mul a !! (idx + j)%nat /\
      phase a' !! (idx + j)%nat = FloatSpin_SetValue (fmul v.2 q360) <$> phase a !! (idx + j)%nat.
Proof.
  induction rows as [|f rows IH]; intros vs idx a Hwf Hval Hlen.
  - apply Forall2_nil_inv_l in Hval as ->. exists a. split; [done|].
    split; [apply same_but_refl|]. intros j v; by rewrite lookup_nil.
  - apply Forall2_cons_inv_l in Hval as (v & vs' & Hv & Hval & ->).
    simpl in Hlen.
    destruct (wf_lookups a idx Hwf) as (w1 & w2 & w3 & o & H1 & H2 & H3 & H4); [lia|].
    pose proof (set_audio_row_ok idx f a v w1 w2 w3 o H1 H2 H3 H4 Hv) as Hrow.
    pose proof (set_audio_row_same_but idx f a _ _ Hrow) as Hsb1.
    destruct (IH vs' (S idx) (row_applied idx v a)) as (a' & Hrows & Hsb & Hch);
      [by eapply wf_same_but | done | lia |].
    exists a'. split; [|split].
    + simpl. unfold bind. by rewrite Hrow.
    + etrans.
      * eapply same_but_weaken; [|exact Hsb1]. simpl; lia.
      * eapply same_but_weaken; [|exact Hsb]. simpl; lia.
    + intros [|j] u Hu; simpl in Hu.
      * injection Hu as ->. rewrite Nat.add_0_r.
        destruct Hsb as [Hf Hm Hp Hfu _ _ _ _ _ _ _ _ _].
        rewrite Hf, Hm, Hp, Hfu by lia. unfold row_applied; simpl.
        rewrite list_lookup_insert_eq by (eapply lookup_lt_Some; eauto).
        rewrite !list_lookup_alter_eq. done.
      * destruct (Hch j u Hu) as (Ha & Hb & Hc & Hd).
        replace (idx + S j)%nat with (S idx + j)%nat by lia.
        rewrite Ha, Hb, Hc, Hd. unfold row_applied; simpl.
        rewrite !list_lookup_alter_ne by lia. done.
Qed.

(** [set_audio_params] for a list is the loop and then [reset_phase];
    for an iterable that ends with an exception, the loop and then the
    exception. *)
Lemma set_audio_params_rows rows a :
  set_audio_params rows a = (set_audio_rows 0 rows ;;; modify reset_phase) a.
Proof.
  unfold set_audio_params, set_audio_params_of, bind. simpl.
  by destruct (set_audio_rows 0 rows a) as [[[]|e] a1].
Qed.

Lemma set_audio_params_of_list it a :
  it_error it = false -> set_audio_params_of it a = set_audio_params (it_rows it) a.
Proof. intros H. unfold set_audio_params, set_audio_params_of. simpl. by rewrite H. Qed.


(** ** [reset_phase] *)

Lemma reset_phase_loop_lookup fs : forall phs i,
  reset_phase_loop fs phs !! i =
  match fs !! i, phs !! i with
  | Some f, Some w => Some (setPhase (fdiv (fs_value w) q360) (reset f))
  | o, _ => o
  end.
Proof.
  induction fs as [|f fs IH]; intros [|w phs] [|i]; simpl;
    first [done | by destruct (fs !! i) | apply IH].
Qed.

Lemma reset_phase_loop_length fs : forall phs,
  length (reset_phase_loop fs phs) = length fs.
Proof. induction fs; intros [|w phs]; simpl; auto. Qed.

Lemma reset_phase_loop_idem fs : forall phs,
  reset_phase_loop (reset_phase_loop fs phs) phs = reset_phase_loop fs phs.
Proof.
  induction fs as [|f fs IH]; intros [|w phs]; simpl; try done.
  by rewrite IH.
Qed.

Lemma reset_phase_same_but a : same_but 0 (length (func a)) a (reset_phase a).
Proof.
  constructor; simpl; try done.
  - intros j Hj. rewrite reset_phase_loop_lookup.
    rewrite (lookup_ge_None_2 (func a) j) by lia. done.
  - apply reset_phase_loop_length.
Qed.

Lemma in_sync_reset_phase a j : in_sync_at (reset_phase a) j.
Proof.
  intros f w Hf Hw. unfold reset_phase in *; simpl in *.
  rewrite reset_phase_loop_lookup, Hw in Hf.
  destruct (func a !! j); by simplify_eq.
Qed.

(** C7.  [reset_phase] restarts the phase accumulator of every channel
    and gives the oscillator the phase of its spinner, the spinner value
    divided by 360; frequency, gain and play state stay.  Called a second
    time with the spinners unchanged it leaves the object exactly as the
    first call left it, so the phases applied, and with them the relative
    alignment of the channels, are those of a single call. *)
Theorem reset_phase_idempotent (a : AudioControl) :
  (forall i f w, func a !! i = Some f -> phase a !! i = Some w ->
     func (reset_phase a) !! i =
       Some (mkSine (sine_freq f) (sine_mul f) (fdiv (fs_value w) q360) 0 (sine_playing f)))
  /\ phase (reset_phase a) = phase a
  /\ reset_phase (reset_phase a) = reset_phase a.
Proof.
  split; [|split].
  - intros i f w Hf Hw. unfold reset_phase; simpl.
    rewrite reset_phase_loop_lookup, Hf, Hw. reflexivity.
  - reflexivity.
  - unfold reset_phase, with_func; simpl. by rewrite reset_phase_loop_idem.
Qed.

(** ** Rows and channels *)

Lemma params_sine_of_row v : params (sine_of_row v) = v.
Proof. by destruct v as [[? ?] ?]. Qed.

Lemma get_audio_params_lookup a j :
  get_audio_params a !! j = params <$> func a !! j.
Proof. unfold get_audio_params. apply (list_lookup_fmap params). Qed.

(** C1, amended.  When the rows outnumber the channels,
    [set_audio_params] never ends normally: it raises.  If the first
    [CH_CNT] rows each hold three numbers, they are applied to the
    channels 0..CH_CNT-1 in order, and the call then raises [IndexError]
    at the row after them, before the final [reset_phase]: the
    oscillators are left with exactly the values of those rows. *)
Theorem set_audio_params_extra_rows (a : AudioControl) (rows : list (list cell)) :
  wf a -> (CH_CNT < length rows)%nat ->
  (exists e a', set_audio_params rows a = (Raise e, a')) /\
  (forall vs, Forall2 (fun f v => row_values f = Some v) (take CH_CNT rows) vs ->
     exists a', set_audio_params rows a = (Raise IndexError, a') /\
                get_audio_params a' = vs).
Proof.
  intros Hwf Hlen. split.
  - rewrite set_audio_params_rows. unfold bind.
    destruct (set_audio_rows 0 rows a) as [[u|e] a1] eqn:E; [|eauto].
    apply set_audio_rows_Ok_le in E. destruct Hwf. lia.
  - intros vs Hvs.
    destruct (drop CH_CNT rows) as [|r rest] eqn:Hdrop.
    { apply (f_equal length) in Hdrop. rewrite length_drop in Hdrop. simpl in Hdrop. lia. }
    assert (Hlen1 : length (take CH_CNT rows) = CH_CNT) by (rewrite length_take; lia).
    destruct (set_audio_rows_spec (take CH_CNT rows) vs 0%nat a Hwf Hvs)
      as (a1 & Hrows & Hsb & Hch); [lia|].
    exists a1. split.
    + rewrite set_audio_params_rows.
      rewrite <- (take_drop CH_CNT rows), Hdrop.
      unfold bind at 1. rewrite set_audio_rows_app.
      unfold bind at 1. rewrite Hrows. simpl. unfold bind at 1.
      rewrite set_audio_row_beyond; [done|].
      destruct Hsb, Hwf. lia.
    + assert (Hwf1 : wf a1) by (by eapply wf_same_but).
      apply list_eq. intros j. rewrite get_audio_params_lookup.
      destruct (vs !! j) as [v|] eqn:Ev.
      * destruct (Hch j v Ev) as (Hfj & _). simpl in Hfj. rewrite Hfj. simpl.
        by rewrite params_sine_of_row.
      * apply lookup_ge_None_1 in Ev.
        apply Forall2_length in Hvs. rewrite Hlen1 in Hvs.
        rewrite (lookup_ge_None_2 (func a1) j); [done|].
        destruct Hwf1. lia.
Qed.

Lemma wf_init_audio : wf init_audio.
Proof. constructor; try reflexivity. repeat constructor. Qed.

Lemma ids_ok_init_audio : ids_ok init_audio.
Proof.
  constructor; try reflexivity.
  apply (bool_decide_unpack _). vm_compute. exact I.
Qed.






(** ** A load that breaks off *)



(** ** What a load leaves alone *)

Lemma set_audio_params_of_same_but it a :
  keeps (same_but 0 (max (length (it_rows it)) (length (func a))))
    (set_audio_params_of it) a.
Proof.
  unfold set_audio_params_of. apply keeps_bind; [apply _ | |].
  - eapply keeps_weaken; [|apply set_audio_rows_same_but].
    intros s'. apply same_but_weaken. lia.
  - intros u s1 E.
    pose proof (sb_func_len _ _ _ _ (set_audio_rows_same_but _ _ _ _ _ E)) as Hl.
    apply keeps_bind; [apply _ | |].
    + destruct (it_error it); [apply keeps_raise | apply keeps_ret]; apply _.
    + intros u2 s2 E2. apply keeps_modify.
      assert (s2 = s1) as ->
        by (destruct (it_error it); [discriminate E2 | by injection E2]).
      eapply same_but_weaken; [|apply reset_phase_same_but]. lia.
Qed.

Lemma set_audio_params_same_but rows a :
  keeps (same_but 0 (max (length rows) (length (func a)))) (set_audio_params rows) a.
Proof. apply (set_audio_params_of_same_but (mkIter rows false)). Qed.

Lemma loaded_same_but p fr :
  exists n, same_but 0 n (audio fr) (loaded p fr).
Proof.
  unfold loaded. destruct (disk fr !! p) as [f|].
  - eexists. eapply set_audio_params_of_same_but. apply surjective_pairing.
  - exists 0%nat. apply same_but_refl.
Qed.

Lemma loaded_server p fr : server (loaded p fr) = server (audio fr).
Proof. destruct (loaded_same_but p fr) as [n []]. congruence. Qed.

(** [start_next_file] with a file at the head of the queue. *)
Lemma start_next_file_head fr p q :
  filelist fr = Some (p :: q) ->
  let fr' := (start_next_file fr).2 in
  audio fr' = loaded p fr /\ filelist fr' = Some q /\
  multifile_timer fr' = multifile_timer fr /\ startButton fr' = startButton fr /\
  disk fr' = disk fr.
Proof.
  intros Hq. unfold start_next_file, loaded, on_audio, print, bind, modify, get, ret, of_option.
  simpl. rewrite Hq. simpl.
  destruct (disk fr !! p) as [f|]; simpl; [|done].
  destruct (set_audio_params_of (reader f) (audio fr)) as [[[]|e] a']; simpl; done.
Qed.

(** ** The playback queue *)

(** With the multi-file timer stopped, the end of a period calls no
    handler. *)
Lemma idle_periods fr n :
  multifile_timer fr = None -> run (replicate n MultifilePeriod) fr = fr.
Proof.
  intros H. induction n as [|n IH]; simpl; [done|].
  unfold multifile_period, bind, get, ret; simpl. rewrite H. exact IH.
Qed.

(** The handler of the multi-file timer, by the state of the queue. *)
Lemma on_multifile_timer_queue fr p q :
  filelist fr = Some (p :: q) -> on_multifile_timer fr = start_next_file fr.
Proof.
  intros Eq. unfold on_multifile_timer, bind, get, of_option, ret. simpl.
  rewrite Eq. reflexivity.
Qed.

Lemma on_multifile_timer_done fr :
  filelist fr = Some [] ->
  on_multifile_timer fr
  = (Ok tt, with_stdout (stdout fr ++ ["Playback complete"])
              (with_startButton "Start"
                 (with_audio (enable_server false (audio fr))
                    (with_multifile_timer None fr)))).
Proof.
  intros Eq. unfold on_multifile_timer, print, bind, modify, get, of_option, ret. simpl.
  rewrite Eq. reflexivity.
Qed.

Lemma multifile_period_running fr ms :
  multifile_timer fr = Some ms -> multifile_period fr = on_multifile_timer fr.
Proof. intros Et. unfold multifile_period, bind, get. simpl. by rewrite Et. Qed.

(** The end of a period with the timer running and the queue empty. *)
Lemma multifile_period_done fr ms :
  multifile_timer fr = Some ms -> filelist fr = Some [] ->
  let fr' := (multifile_period fr).2 in
  multifile_timer fr' = None /\
  server (audio fr') = server_call_on Stop (server (audio fr)) /\
  srv_started (server (audio fr')) = false /\
  startButton fr' = "Start" /\
  func (audio fr') = func (audio fr).
Proof.
  intros Et Eq. cbv zeta.
  by rewrite (multifile_period_running fr ms Et), (on_multifile_timer_done fr Eq).
Qed.

(** C3, amended.  A selection of no file: nothing is loaded and the
    timer is left as it is.  A selection of one file: the file is loaded
    at once and the timer is left as it is.  In both cases a timer that
    is stopped stays stopped, and no later period calls the handler that
    stops the server; a timer that still runs from an earlier selection
    of several files finds the queue empty at the end of its period,
    stops, sends [Stop] to the server and labels the start button
    "Start".  A selection of two files: the first is loaded at once and
    the timer started with [PLAY_TIME]; the end of the first period loads
    the second and leaves timer and server alone; the end of the next
    period stops the timer, sends [Stop] to the server and labels the
    start button "Start". *)
Theorem playback_queue :
  (forall fr,
     let fr1 := (load_press (Some []) fr).2 in
     audio fr1 = audio fr /\ multifile_timer fr1 = multifile_timer fr /\
     (multifile_timer fr = None ->
      forall n, run (replicate n MultifilePeriod) fr1 = fr1) /\
     (forall ms, multifile_timer fr = Some ms ->
      let fr2 := (multifile_period fr1).2 in
      multifile_timer fr2 = None /\
      server (audio fr2) = server_call_on Stop (server (audio fr)) /\
      srv_started (server (audio fr2)) = false /\ startButton fr2 = "Start")) /\
  (forall fr p,
     let fr1 := (load_press (Some [p]) fr).2 in
     audio fr1 = loaded p fr /\ filelist fr1 = Some [] /\
     multifile_timer fr1 = multifile_timer fr /\
     server (audio fr1) = server (audio fr) /\
     (multifile_timer fr = None ->
      forall n, run (replicate n MultifilePeriod) fr1 = fr1) /\
     (forall ms, multifile_timer fr = Some ms ->
      let fr2 := (multifile_period fr1).2 in
      multifile_timer fr2 = None /\
      server (audio fr2) = server_call_on Stop (server (audio fr)) /\
      srv_started (server (audio fr2)) = false /\ startButton fr2 = "Start")) /\
  (forall fr p1 p2,
     let fr1 := (load_press (Some [p1; p2]) fr).2 in
     let fr2 := (multifile_period fr1).2 in
     let fr3 := (multifile_period fr2).2 in
     (audio fr1 = loaded p1 fr /\ filelist fr1 = Some [p2] /\
      multifile_timer fr1 = Some PLAY_TIME) /\
     (audio fr2 = loaded p2 fr1 /\ filelist fr2 = Some [] /\
      multifile_timer fr2 = Some PLAY_TIME /\
      server (audio fr2) = server (audio fr) /\ startButton fr2 = startButton fr) /\
     (multifile_timer fr3 = None /\
      server (audio fr3) = server_call_on Stop (server (audio fr)) /\
      srv_started (server (audio fr3)) = false /\
      startButton fr3 = "Start" /\
      func (audio fr3) = func (audio fr2))).
Proof.
  split; [|split].
  - intros fr fr1. subst fr1. simpl. split; [done|]. split; [done|]. split.
    + intros H n. by apply idle_periods.
    + intros ms Hms.
      destruct (multifile_period_done (with_filelist (Some []) fr) ms Hms eq_refl)
        as (H1 & H2 & H3 & H4 & _).
      done.
  - intros fr p fr1.
    assert (H1 : fr1 = (start_next_file (with_filelist (Some [p]) fr)).2).
    { subst fr1. unfold load_press, bind, modify, ret; simpl.
      by destruct (start_next_file (with_filelist (Some [p]) fr)) as [[[]|e] s]. }
    destruct (start_next_file_head (with_filelist (Some [p]) fr) p [] eq_refl)
      as (Ha & Hq & Ht & _ & _).
    rewrite <- H1 in Ha, Hq, Ht. simpl in Ht.
    assert (Hs : server (audio fr1) = server (audio fr)).
    { rewrite Ha. apply (loaded_server p (with_filelist (Some [p]) fr)). }
    split; [exact Ha|]. split; [exact Hq|]. split; [exact Ht|]. split; [exact Hs|].
    split.
    + intros H n. apply idle_periods. congruence.
    + intros ms Hms. rewrite Hms in Ht.
      destruct (multifile_period_done fr1 ms Ht Hq) as (H2 & H3 & H4 & H5 & _).
      rewrite Hs in H3. done.
  - intros fr p1 p2 fr1 fr2 fr3.
    set (fr0 := with_stdout (stdout fr ++ [pretty 2%nat +:+ " files queued."])
                  (with_multifile_timer (Some PLAY_TIME)
                     (with_filelist (Some [p1; p2]) fr))).
    assert (H1 : fr1 = (start_next_file fr0).2).
    { subst fr1 fr0. unfold load_press, print, bind, modify, ret; simpl.
      by destruct (start_next_file _) as [[[]|e] s]. }
    destruct (start_next_file_head fr0 p1 [p2] eq_refl) as (Ha1 & Hq1 & Ht1 & Hb1 & _).
    rewrite <- H1 in Ha1, Hq1, Ht1, Hb1. simpl in Ht1, Hb1.
    assert (H2 : fr2 = (start_next_file fr1).2).
    { subst fr2.
      by rewrite (multifile_period_running fr1 _ Ht1), (on_multifile_timer_queue fr1 p2 [] Hq1). }
    destruct (start_next_file_head fr1 p2 [] Hq1) as (Ha2 & Hq2 & Ht2 & Hb2 & _).
    rewrite <- H2 in Ha2, Hq2, Ht2, Hb2.
    assert (Hs2 : server (audio fr2) = server (audio fr)).
    { rewrite Ha2, loaded_server, Ha1. apply (loaded_server p1 fr0). }
    rewrite Ht1 in Ht2.
    destruct (multifile_period_done fr2 _ Ht2 Hq2) as (H3 & H4 & H5 & H6 & H7).
    fold fr3 in H3, H4, H5, H6, H7.
    split; [|split].
    + rewrite Ha1. done.
    + rewrite Hb2. done.
    + rewrite H4, Hs2. done.
Qed.

(** ** Finding a control by its Id *)

Lemma index_lookup (l : list Z) : forall i x,
  NoDup l -> l !! i = Some x -> index x l = Some i.
Proof.
  induction l as [|y l IH]; intros i x Hnd Hi; [done|].
  apply NoDup_cons in Hnd as [Hy Hnd]. simpl.
  destruct i as [|i]; simpl in Hi.
  - injection Hi as ->. by rewrite bool_decide_eq_true_2.
  - rewrite bool_decide_eq_false_2.
    + by rewrite (IH i x Hnd Hi).
    + intros ->. apply Hy. by eapply list_elem_of_lookup_2.
Qed.

Lemma find_lookup {A} (g : A -> Z) (l : list A) : forall i w,
  NoDup (map g l) -> l !! i = Some w ->
  find (fun x => bool_decide (g x = g w)) l = Some w.
Proof.
  induction l as [|y l IH]; intros i w Hnd Hi; [done|].
  simpl in Hnd. apply NoDup_cons in Hnd as [Hy Hnd]. simpl.
  destruct i as [|i]; simpl in Hi.
  - injection Hi as ->. by rewrite bool_decide_eq_true_2.
  - rewrite bool_decide_eq_false_2; [by eapply IH|].
    intros E. apply Hy. rewrite E.
    apply (list_elem_of_fmap_2 g). by eapply list_elem_of_lookup_2.
Qed.

Lemma find_absent {A} (g : A -> Z) (l : list A) ID :
  ID ∉ map g l -> find (fun x => bool_decide (g x = ID)) l = None.
Proof.
  induction l as [|y l IH]; intros Hn; [done|]. simpl in *.
  apply not_elem_of_cons in Hn as [Hy Hn].
  rewrite bool_decide_eq_false_2 by congruence. by apply IH.
Qed.

Lemma FindWindowById_slider a i w :
  ids_ok a -> mul a !! i = Some w ->
  FindWindowById (sl_Id w) a = Some (SliderWin w) /\
  index (sl_Id w) (mul_idlist a) = Some i.
Proof.
  intros [Hf Hm Hp Hnd] Hw.
  rewrite Hf, Hm, Hp in Hnd.
  apply NoDup_app in Hnd as (_ & Hfm & Hnd).
  apply NoDup_app in Hnd as (Hnm & _ & _).
  assert (Hin : sl_Id w ∈ map sl_Id (mul a)).
  { apply (list_elem_of_fmap_2 sl_Id). by eapply list_elem_of_lookup_2. }
  split.
  - unfold FindWindowById. rewrite find_absent.
    + by rewrite (find_lookup sl_Id (mul a) i w).
    + intros Hin'. apply (Hfm _ Hin'). apply elem_of_app. by left.
  - rewrite Hm. apply index_lookup; [done|].
    change ((sl_Id <$> mul a) !! i = Some (sl_Id w)).
    by rewrite list_lookup_fmap, Hw.
Qed.

(** [mspin] for the slider of channel [i]: the oscillator of the channel
    gets the slider position divided by 100 as its gain. *)
Lemma mspin_spec a i w f :
  ids_ok a -> mul a !! i = Some w -> func a !! i = Some f ->
  mspin (sl_Id w) a
  = (Ok tt, with_func (<[i := setMul (fdiv (rnd (Qc_of_Z (sl_value w))) q100) f]> (func a)) a).
Proof.
  intros Hids Hw Hf.
  destruct (FindWindowById_slider a i w Hids Hw) as [Hfind Hidx].
  unfold mspin, bind, get, modify, of_option, ret. simpl.
  rewrite Hidx. simpl. rewrite Hf. simpl. rewrite Hfind. reflexivity.
Qed.

(** ** Recording *)

Lemma record_step filename a out :
  let '(b, a', out') := record filename a out in
  b = negb (recording a) /\ recording a' = b /\
  server a' = server_call_on (rec_call b filename) (server a) /\
  freq a' = freq a /\ func a' = func a.
Proof. unfold record. destruct (recording a); simpl; done. Qed.

Lemma record_calls_spec names : forall a out,
  let '(bs, a', out') := record_calls names a out in
  bs = alternating (negb (recording a)) (length names) /\
  recording a' = (if Nat.even (length names) then recording a else negb (recording a)) /\
  srv_calls (server a')
  = srv_calls (server a) ++ zip_with rec_call bs names.
Proof.
  induction names as [|n names IH]; intros a out;
    cbn [record_calls length zip_with alternating].
  - simpl. by rewrite app_nil_r.
  - pose proof (record_step n a out) as Hs.
    destruct (record n a out) as [[b a1] out1].
    destruct Hs as (Hb & Hr & Hsrv & _).
    specialize (IH a1 out1).
    destruct (record_calls names a1 out1) as [[bs a2] out2].
    destruct IH as (Hbs & Hr2 & Hc). subst b.
    split; [|split].
    + rewrite Hbs, Hr. done.
    + rewrite Hr2, Hr. destruct (Nat.even (length names)) eqn:E.
      * rewrite Nat.even_succ, <- Nat.negb_even, E. done.
      * rewrite Nat.even_succ, <- Nat.negb_even, E. simpl. by rewrite negb_involutive.
    + rewrite Hc, Hsrv. cbn [server_call_on srv_calls]. by rewrite <- app_assoc.
Qed.

(** C10.  Every call of [record] turns the flag over, returns the new
    value, and tells the server to start recording when it returns True
    and to stop when it returns False; [rec_press] labels the button
    after the value returned.  From a state that is not recording, the
    values returned by successive calls are True, False, True, ..., the
    calls on the server are, in the same order, a start for each True and
    a stop for each False, and the flag ends True after an odd number of
    calls and False after an even number. *)
Theorem record_alternates :
  (forall filename a out,
     let '(b, a', _) := record filename a out in
     b = negb (recording a) /\ recording a' = b /\
     server a' = server_call_on (rec_call b filename) (server a)) /\
  (forall fr,
     recording (audio (rec_press fr)) = negb (recording (audio fr)) /\
     recButton (rec_press fr)
     = if negb (recording (audio fr)) then "Record Stop" else "Record Start") /\
  (forall names a out,
     recording a = false ->
     let '(bs, a', _) := record_calls names a out in
     bs = alternating true (length names) /\
     recording a' = Nat.odd (length names) /\
     srv_calls (server a') = srv_calls (server a) ++ zip_with rec_call bs names).
Proof.
  split; [|split].
  - intros filename a out. pose proof (record_step filename a out) as H.
    destruct (record filename a out) as [[b a'] out']. tauto.
  - intros fr. unfold rec_press.
    pose proof (record_step "record.wav" (audio fr) (stdout fr)) as H.
    destruct (record "record.wav" (audio fr) (stdout fr)) as [[b a'] out'].
    destruct H as (-> & Hr & _). destruct (recording (audio fr)); simpl in *; done.
  - intros names a out Hrec.
    pose proof (record_calls_spec names a out) as H.
    destruct (record_calls names a out) as [[bs a'] out'].
    rewrite Hrec in H. simpl in H. destruct H as (-> & -> & ->).
    split; [done|]. split; [|done].
    rewrite <- Nat.negb_even. by destruct (Nat.even (length names)).
Qed.

(** ** The display loop *)

(** C5, amended.  From [graphing == False] the first call of
    [toggle_graph] starts the table recorder and the second stops it
    again: the frame is as before the two calls, but for the stopped
    recorder and the label "Start Graph".  A stopped recorder and
    [graphing == False] is what [__init__] has before its own call of
    [toggle_graph]; that call makes the state at startup the running one,
    with the recorder started. *)
Theorem toggle_graph_twice :
  (forall fr, graphing fr = false ->
     (graphing (toggle_graph fr) = true /\
      trig_tbl (audio (toggle_graph fr)) = true /\
      grphButton (toggle_graph fr) = "Pause Graph") /\
     (graphing (toggle_graph (toggle_graph fr)) = false /\
      trig_tbl (audio (toggle_graph (toggle_graph fr))) = false /\
      grphButton (toggle_graph (toggle_graph fr)) = "Start Graph" /\
      audio (toggle_graph (toggle_graph fr)) = with_trig_tbl false (audio fr))) /\
  (forall d,
     (graphing (with_graphing false (constructed d)) = false /\
      trig_tbl (audio (with_graphing false (constructed d))) = false) /\
     mainFrame_init d = toggle_graph (with_graphing false (constructed d)) /\
     (graphing (mainFrame_init d) = true /\
      trig_tbl (audio (mainFrame_init d)) = true)).
Proof.
  split.
  - intros fr H. unfold toggle_graph. rewrite H. simpl. done.
  - intros d. done.
Qed.

(** ** The gain of the groups *)

Global Instance same_groups_preorder : PreOrder same_groups.
Proof.
  split.
  - intros a. by split.
  - intros a b c [] []. split; congruence.
Qed.

Lemma keeps_final {S A} (R : S -> S -> Prop) (m : M S A) s :
  keeps R m s -> R s (m s).2.
Proof. intros H. eapply H. apply surjective_pairing. Qed.

Lemma same_but_groups idx n a a' : same_but idx n a a' -> same_groups a a'.
Proof. intros []. split; congruence. Qed.

Lemma on_audio_audio {A} (m : M AudioControl A) fr :
  audio (on_audio m fr).2 = (m (audio fr)).2.
Proof. unfold on_audio. by destruct (m (audio fr)). Qed.

Ltac groups_tac := split; reflexivity.

Lemma fspin_groups ID a : keeps same_groups (fspin ID) a.
Proof. unfold fspin. repeat (cbv zeta; keeps_step groups_tac). Qed.

Lemma mspin_groups ID a : keeps same_groups (mspin ID) a.
Proof. unfold mspin. repeat (cbv zeta; keeps_step groups_tac). Qed.

Lemma set_audio_params_groups it a : keeps same_groups (set_audio_params_of it) a.
Proof.
  eapply keeps_weaken; [|apply set_audio_params_of_same_but].
  intros s'. apply same_but_groups.
Qed.

Lemma start_next_file_groups fr :
  same_groups (audio fr) (audio (start_next_file fr).2).
Proof.
  unfold start_next_file, on_audio, print, bind, modify, get, ret, raise, of_option. simpl.
  destruct (filelist fr) as [[|p q]|]; simpl; try reflexivity.
  destruct (disk fr !! p) as [f|]; simpl; try reflexivity.
  pose proof (keeps_final _ _ _ (set_audio_params_groups (reader f) (audio fr))) as H.
  destruct (set_audio_params_of (reader f) (audio fr)) as [[[]|e] a']; exact H.
Qed.

Lemma load_press_groups choice fr :
  same_groups (audio fr) (audio (load_press choice fr).2).
Proof.
  destruct choice as [paths|]; [|reflexivity].
  unfold load_press, print, bind, modify, ret. simpl.
  destruct (bool_decide (1 < length paths)%nat); simpl;
    match goal with
    | |- context [start_next_file ?x] =>
        pose proof (start_next_file_groups x) as H;
        destruct (start_next_file x) as [[[]|e] s]; exact H
    end.
Qed.

Lemma multifile_period_groups fr :
  same_groups (audio fr) (audio (multifile_period fr).2).
Proof.
  unfold multifile_period, on_multifile_timer, print, bind, modify, get, ret, of_option.
  simpl. destruct (multifile_timer fr); [|reflexivity].
  destruct (filelist fr) as [l|]; simpl; [|reflexivity].
  destruct (bool_decide (length l <= 0)%nat); simpl.
  - split; reflexivity.
  - pose proof (start_next_file_groups fr) as H.
    unfold start_next_file, bind, get in H. exact H.
Qed.

(** No handler touches the two group objects. *)
Lemma handle_groups ev fr : same_groups (audio fr) (audio (handle ev fr).2).
Proof.
  destruct ev as [ID v|ID v|ID v| | | |choice|choice| | ]; cbn [handle].
  - rewrite on_audio_audio. apply (keeps_final same_groups).
    apply keeps_bind; [apply _ | apply keeps_modify; groups_tac |].
    intros; apply fspin_groups.
  - rewrite on_audio_audio. apply (keeps_final same_groups).
    apply keeps_bind; [apply _ | apply keeps_modify; groups_tac |].
    intros; apply mspin_groups.
  - rewrite on_audio_audio. split; reflexivity.
  - unfold modify, start_press. simpl. destruct (bool_decide _); split; reflexivity.
  - unfold modify, rec_press, record. simpl.
    destruct (recording (audio fr)); split; reflexivity.
  - unfold modify, graph_press, toggle_graph. simpl.
    destruct (bool_decide _); split; reflexivity.
  - destruct choice; split; reflexivity.
  - apply load_press_groups.
  - unfold bind, get, modify, ret. simpl. destruct (redraw_timer fr); [|reflexivity].
    simpl. unfold on_redraw_timer. destruct (graphing fr); split; reflexivity.
  - apply multifile_period_groups.
Qed.

Lemma run_groups evs : forall fr, same_groups (audio fr) (audio (run evs fr)).
Proof.
  induction evs as [|ev evs IH]; intros fr; simpl; [reflexivity|].
  etrans; [apply handle_groups | apply IH].
Qed.

End Generic.

(** ** Arithmetic under the laws of rounding *)

Section Laws.
Context `{fl : Rounding} {laws : RoundingLaws fl}.

Lemma rnd_fixed (x : Qc) (n j : Z) :
  x = repr n j -> (Z.abs n < 2 ^ 53)%Z -> (-1074 <= j)%Z -> rnd x = x.
Proof. intros -> H Hj. by apply rnd_repr. Qed.

Lemma rnd_Z (n : Z) : (Z.abs n < 2 ^ 53)%Z -> rnd (Qc_of_Z n) = Qc_of_Z n.
Proof. intros H. apply (rnd_fixed _ n 0); [apply Qc_of_Z_repr | done | done]. Qed.

Lemma rnd_0 : rnd 0 = 0.
Proof. apply (rnd_fixed _ 0 0); [qc_eq | done | done]. Qed.

Lemma rnd_1 : rnd 1 = 1.
Proof. apply (rnd_fixed _ 1 0); [qc_eq | done | done]. Qed.

Lemma fmul_nonneg x y : 0 <= x -> 0 <= y -> 0 <= fmul x y.
Proof.
  intros Hx Hy. unfold fmul. rewrite <- rnd_0. apply rnd_mono.
  by apply Qcmult_nonneg_nonneg.
Qed.

Lemma fdiv_nonneg x c : 0 <= x -> 0 < c -> 0 <= fdiv x c.
Proof.
  intros Hx Hc. unfold fdiv. rewrite <- rnd_0. apply rnd_mono.
  replace 0 with (0 / c) by (unfold Qcdiv; apply Qcmult_0_l).
  by apply Qcdiv_le_mono.
Qed.


(** A value between 0 and c, divided by c, is between 0 and 1. *)
Lemma fdiv_in_unit (d c : Qc) :
  0 < c -> 0 <= d -> d <= c -> 0 <= fdiv d c /\ fdiv d c <= 1.
Proof.
  intros Hc H0 H1. split; [by apply fdiv_nonneg|].
  unfold fdiv. rewrite <- rnd_1. apply rnd_mono.
  replace 1 with (c / c).
  - by apply Qcdiv_le_mono.
  - unfold Qcdiv. apply Qcmult_inv_r. intros ->. by apply (irreflexivity Qclt) in Hc.
Qed.

Lemma top_gain : fdiv (Qc_of_Z 105) q100 = q1_05.
Proof. unfold fdiv, q1_05, literal. f_equal; qc_eq. Qed.

(** A slider position 0..105, divided by 100, is between 0 and 1.05. *)
Lemma gain_in_range (v : Z) :
  (0 <= v <= 105)%Z ->
  fdiv (rnd (Qc_of_Z v)) q100 = fdiv (Qc_of_Z v) q100 /\
  0 <= fdiv (Qc_of_Z v) q100 /\ fdiv (Qc_of_Z v) q100 <= q1_05.
Proof.
  intros [H0 H1]. split; [|split].
  - rewrite rnd_Z by lia. done.
  - apply fdiv_nonneg; [|apply q100_pos]. by apply (Qc_of_Z_le 0).
  - rewrite <- top_gain. unfold fdiv. apply rnd_mono.
    apply Qcdiv_le_mono; [apply q100_pos|]. by apply Qc_of_Z_le.
Qed.


(** ** What the controls take *)

Lemma is_finite_bounds (x lo hi : Qc) :
  lo <= x -> x <= hi -> is_finite lo = true -> is_finite hi = true ->
  is_finite x = true.
Proof.
  unfold is_finite. intros H1 H2 Hlo Hhi.
  apply andb_prop in Hlo as [_ Hlo]. apply andb_prop in Hhi as [Hhi _].
  apply negb_true_iff in Hlo, Hhi. apply andb_true_intro. split; apply negb_true_iff.
  - destruct (Qcleb huge x) eqn:E; [|done]. apply Qcleb_le in E.
    assert (Hh : Qcleb huge hi = true) by (apply Qcleb_le; by etrans).
    congruence.
  - destruct (Qcleb x (- huge)) eqn:E; [|done]. apply Qcleb_le in E.
    assert (Hl : Qcleb lo (- huge) = true) by (apply Qcleb_le; by etrans).
    congruence.
Qed.

(** The integer part of a float between 0 and an integer. *)
Lemma truncate_bounds (x : Qc) (b : Z) :
  0 <= x -> x <= Qc_of_Z b -> (0 <= truncate x <= b)%Z.
Proof.
  unfold truncate, Qcle, Qle. destruct x as [[n d] Hc]. simpl. intros H0 H1.
  rewrite Z.mul_1_r in H0, H1.
  assert (Hn : (0 <= n)%Z) by lia.
  rewrite Z.quot_div_nonneg by lia. split.
  - apply Z.div_pos; lia.
  - apply Z.div_le_upper_bound; lia.
Qed.

Lemma fits_int_bounds (x : Qc) (b : Z) :
  0 <= x -> x <= Qc_of_Z b -> (b <= INT_MAX)%Z -> fits_int x = true.
Proof.
  intros H0 H1 Hb. destruct (truncate_bounds x b H0 H1) as [Ht0 Ht1].
  unfold fits_int. apply andb_true_intro. split; apply Z.leb_le.
  - etrans; [|exact Ht0]. done.
  - lia.
Qed.



(** ** Numbers read from text *)

(** [float] of a string whose number is n * 2^j. *)
Ltac float_is n j :=
  vm_compute; apply (f_equal (fun x => Some (Real x)));
  etrans; [apply (rnd_fixed _ n j); [qc_eq | done | done] | qc_eq].

Lemma float_440 : float_of_string "440.0" = Some (Real (Qc_of_Z 440)).
Proof. float_is 440%Z 0%Z. Qed.


Lemma float_0_5 : float_of_string "0.5" = Some (Real (Qc_of_ints 1 2)).
Proof. float_is 1%Z (-1)%Z. Qed.


Lemma float_0_0 : float_of_string "0.0" = Some (Real (Qc_of_Z 0)).
Proof. float_is 0%Z 0%Z. Qed.


Lemma row_values_texts s0 s1 s2 x0 x1 x2 :
  float_of_string s0 = Some (Real x0) -> float_of_string s1 = Some (Real x1) ->
  float_of_string s2 = Some (Real x2) -> takes (x0, x1, x2) = true ->
  row_values [Text s0; Text s1; Text s2] = Some (x0, x1, x2).
Proof.
  intros H0 H1 H2 T. unfold row_values, float_number. simpl.
  rewrite H0, H1, H2. simpl. by rewrite T.
Qed.

(** A row of a frequency below [huge], a gain between 0 and 2 and a
    phase between 0 and 2 is taken. *)
Lemma takes_small x0 x1 x2 :
  0 <= x0 -> x0 <= q20000 -> 0 <= x1 -> x1 <= Qc_of_Z 2 ->
  0 <= x2 -> x2 <= Qc_of_Z 2 -> takes (x0, x1, x2) = true.
Proof.
  intros Hf0 Hf1 Hm0 Hm1 Hp0 Hp1. unfold takes. simpl.
  apply andb_true_intro. split; [apply andb_true_intro; split|].
  - by apply (is_finite_bounds _ 0 q20000).
  - apply (fits_int_bounds _ 200); [| |done].
    + apply fmul_nonneg; [done|]. apply Qclt_le_weak, q100_pos.
    + unfold fmul. rewrite <- (rnd_Z 200) by done. apply rnd_mono.
      replace (Qc_of_Z 200) with (Qc_of_Z 2 * q100) by qc_eq.
      apply Qcmult_le_compat_r; [done|apply Qclt_le_weak, q100_pos].
  - apply (is_finite_bounds _ 0 (Qc_of_Z 720)); [| |done|done].
    + apply fmul_nonneg; [done|]. apply Qclt_le_weak, q360_pos.
    + unfold fmul. rewrite <- (rnd_Z 720) by done. apply rnd_mono.
      replace (Qc_of_Z 720) with (Qc_of_Z 2 * q360) by qc_eq.
      apply Qcmult_le_compat_r; [done|apply Qclt_le_weak, q360_pos].
Qed.

Lemma row_values_440 :
  row_values [Text "440.0"; Text "0.5"; Text "0.0"]
  = Some (Qc_of_Z 440, Qc_of_ints 1 2, Qc_of_Z 0).
Proof.
  apply row_values_texts; [apply float_440 | apply float_0_5 | apply float_0_0|].
  apply takes_small; qc_le.
Qed.





(** ** The whole of [set_audio_params] *)





(** C8.  For any channel, [mspin] gives the oscillator the gain v/100
    for the slider position v, which for v in 0..105 lies between 0 and
    1.05; [reset_phase] gives it the phase d/360 for the spinner value d,
    which for d between 0 and 360 lies between 0 and 1. *)
Theorem control_conversions (a : AudioControl) (i : nat) :
  ids_ok a ->
  (forall w f, mul a !! i = Some w -> func a !! i = Some f ->
     (0 <= sl_value w <= 105)%Z ->
     exists a', mspin (sl_Id w) a = (Ok tt, a') /\
                func a' !! i = Some (setMul (fdiv (Qc_of_Z (sl_value w)) q100) f) /\
                0 <= fdiv (Qc_of_Z (sl_value w)) q100 /\
                fdiv (Qc_of_Z (sl_value w)) q100 <= q1_05) /\
  (forall w f, phase a !! i = Some w -> func a !! i = Some f ->
     0 <= fs_value w -> fs_value w <= q360 ->
     func (reset_phase a) !! i = Some (setPhase (fdiv (fs_value w) q360) (reset f)) /\
     0 <= fdiv (fs_value w) q360 /\ fdiv (fs_value w) q360 <= 1).
Proof.
  intros Hids. split.
  - intros w f Hw Hf Hv. destruct (gain_in_range _ Hv) as (Hg & H0 & H1).
    eexists. split; [by apply mspin_spec|]. split; [|done].
    simpl. rewrite Hg. apply list_lookup_insert_eq. by eapply lookup_lt_Some.
  - intros w f Hw Hf H0 H1. split.
    + unfold reset_phase; simpl. by rewrite reset_phase_loop_lookup, Hf, Hw.
    + apply fdiv_in_unit; [apply q360_pos | done | done].
Qed.

(** C6.  Whatever events the program has handled since startup, and so
    whatever gains the channels have, the signal of the left group is 0.5
    times the mix of the oscillators 0, 1, 2 and the signal of the right
    group 0.5 times the mix of the oscillators 3, 4, 5.  The gain of a
    channel is taken from its slider as it is: [mspin] stores the
    position divided by 100, which is 1.05 at the top of the slider, and
    the groups are not touched by it. *)
Theorem group_gain_is_half :
  (forall d evs wave,
     let a := audio (run evs (mainFrame_init d)) in
     group_out wave a (Lch a) = q0_5 * Mix_out wave (func a) [0; 1; 2]%nat /\
     group_out wave a (Rch a) = q0_5 * Mix_out wave (func a) [3; 4; 5]%nat) /\
  (forall a i w f,
     ids_ok a -> mul a !! i = Some w -> func a !! i = Some f ->
     (0 <= sl_value w <= 105)%Z ->
     exists a', mspin (sl_Id w) a = (Ok tt, a') /\
                func a' !! i = Some (setMul (fdiv (Qc_of_Z (sl_value w)) q100) f) /\
                Lch a' = Lch a /\ Rch a' = Rch a) /\
  fdiv (Qc_of_Z 105) q100 = q1_05.
Proof.
  split; [|split].
  - intros d evs wave a.
    destruct (run_groups evs (mainFrame_init d)) as [HL HR].
    subst a. unfold group_out. rewrite HL, HR. done.
  - intros a i w f Hids Hw Hf Hv. destruct (gain_in_range _ Hv) as (Hg & _).
    eexists. split; [by apply mspin_spec|].
    split; [|done]. simpl. rewrite Hg. apply list_lookup_insert_eq. by eapply lookup_lt_Some.
  - apply top_gain.
Qed.

End Laws.

(** * The program with the floats of binary64 *)

Section Binary64.
#[local] Existing Instance binary64.

Lemma reset_phase_idempotent_witness :
  func (reset_phase init_audio) !! 3%nat
  = Some (mkSine INIT_FREQ INIT_MUL (fdiv INIT_PHASE q360) 0 true).
Proof.
  exact (proj1 (reset_phase_idempotent init_audio) 3%nat
           (mkSine INIT_FREQ INIT_MUL 0 0 true)
           (mkFloatSpin (new_id 3 3) INIT_PHASE 0 q360) eq_refl eq_refl).
Defined.

(** C1, as stated, fails: handed seven rows, [set_audio_params] does not
    end normally. *)
Lemma extra_rows_not_ignored :
  ~ (exists a', set_audio_params seven_rows init_audio = (Ok tt, a')).
Proof.
  intros [a' H]. vm_compute in H. discriminate.
Qed.

Lemma set_audio_params_extra_rows_witness :
  (exists e a', set_audio_params seven_rows init_audio = (Raise e, a')) /\
  (exists a', set_audio_params seven_rows init_audio = (Raise IndexError, a') /\
              get_audio_params a' = replicate 6 (Qc_of_Z 440, Qc_of_ints 1 2, Qc_of_Z 0)).
Proof.
  destruct (set_audio_params_extra_rows init_audio seven_rows wf_init_audio) as [H1 H2].
  - vm_compute. lia.
  - split; [exact H1|]. apply H2.
    change (take CH_CNT seven_rows)
      with (replicate 6 [Text "440.0"; Text "0.5"; Text "0.0"]).
    repeat constructor; apply (row_values_440 (laws := binary64_laws)).
Defined.








(** C3, as stated, fails: a single file selected while the timer of an
    earlier selection of two files still runs is loaded at once, and at
    the end of the period the timer finds the queue empty and stops the
    server, which was started. *)
Lemma one_file_auto_stop :
  let fr1 := (load_press (Some ["c.csv"]) playing_two).2 in
  (multifile_timer playing_two = Some PLAY_TIME /\
   filelist fr1 = Some [] /\ srv_started (server (audio fr1)) = true) /\
  srv_started (server (audio (run [MultifilePeriod] fr1))) = false /\
  ~ (forall n, run (replicate n MultifilePeriod) fr1 = fr1).
Proof.
  cbv zeta. split; [|split].
  - vm_compute. done.
  - vm_compute. reflexivity.
  - intros H. specialize (H 1%nat).
    apply (f_equal (fun fr => srv_started (server (audio fr)))) in H.
    vm_compute in H. discriminate H.
Qed.

Lemma playback_queue_witness :
  (let fr1 := (load_press (Some []) (mainFrame_init three_files)).2 in
   run (replicate 3 MultifilePeriod) fr1 = fr1) /\
  (let fr1 := (load_press (Some ["c.csv"]) (mainFrame_init three_files)).2 in
   run (replicate 3 MultifilePeriod) fr1 = fr1) /\
  (let fr1 := (load_press (Some ["c.csv"]) playing_two).2 in
   let fr2 := (multifile_period fr1).2 in
   multifile_timer fr2 = None /\
   server (audio fr2) = server_call_on Stop (server (audio playing_two)) /\
   srv_started (server (audio fr2)) = false /\ startButton fr2 = "Start") /\
  (let fr1 := (load_press (Some ["a.csv"; "b.csv"]) (mainFrame_init three_files)).2 in
   let fr2 := (multifile_period fr1).2 in
   let fr3 := (multifile_period fr2).2 in
   (audio fr2 = loaded "b.csv" fr1 /\ filelist fr2 = Some [] /\
    multifile_timer fr2 = Some PLAY_TIME) /\
   (multifile_timer fr3 = None /\ srv_started (server (audio fr3)) = false /\
    startButton fr3 = "Start")).
Proof.
  destruct playback_queue as (H0 & H1 & H2). split; [|split; [|split]].
  - apply H0. reflexivity.
  - apply H1. reflexivity.
  - destruct (H1 playing_two "c.csv") as (_ & _ & _ & _ & _ & H).
    exact (H PLAY_TIME eq_refl).
  - destruct (H2 (mainFrame_init three_files) "a.csv" "b.csv")
      as (_ & (Ha & Hb & Hc & _) & (Hd & _ & He & Hf & _)).
    cbv zeta. split; [split; [exact Ha | split; [exact Hb | exact Hc]]|].
    split; [exact Hd | split; [exact He | exact Hf]].
Defined.

Lemma control_conversions_witness :
  (exists a', mspin 2 init_audio = (Ok tt, a') /\
              func a' !! 0%nat
              = Some (setMul (fdiv (Qc_of_Z 50) q100) (mkSine INIT_FREQ INIT_MUL 0 0 true))) /\
  func (reset_phase init_audio) !! 0%nat
  = Some (setPhase (fdiv INIT_PHASE q360) (reset (mkSine INIT_FREQ INIT_MUL 0 0 true))).
Proof.
  destruct (control_conversions (laws := binary64_laws) init_audio 0 ids_ok_init_audio)
    as [H1 H2].
  split.
  - destruct (H1 (mkSlider 2 50 0 105) (mkSine INIT_FREQ INIT_MUL 0 0 true))
      as (a' & Ha & Hb & _); [vm_compute; reflexivity | reflexivity | simpl; lia |].
    exists a'. split; [exact Ha | exact Hb].
  - apply (H2 (mkFloatSpin 3 INIT_PHASE 0 q360) (mkSine INIT_FREQ INIT_MUL 0 0 true));
      [reflexivity | reflexivity | qc_le | qc_le].
Defined.

Lemma record_alternates_witness :
  let '(bs, a', _) := record_calls ["a.wav"; "b.wav"; "c.wav"] init_audio [] in
  bs = [true; false; true] /\
  recording a' = true /\
  srv_calls (server a') = [Boot; RecStart "a.wav"; RecStop; RecStart "c.wav"].
Proof.
  apply (proj2 (proj2 record_alternates) ["a.wav"; "b.wav"; "c.wav"] init_audio []).
  reflexivity.
Defined.

(** C5, as stated, fails: when [__init__] has run, the table recorder is
    started, so the stopped recorder left by two calls of [toggle_graph]
    is not the state of the program at startup. *)
Lemma paused_is_not_startup :
  let fr := with_graphing false (constructed ∅) in
  ~ (trig_tbl (audio (toggle_graph (toggle_graph fr))) = false /\
     trig_tbl (audio (toggle_graph (toggle_graph fr)))
     = trig_tbl (audio (mainFrame_init ∅))).
Proof. cbv zeta. intros [_ H]. vm_compute in H. discriminate H. Qed.

Lemma toggle_graph_twice_witness :
  let fr := with_graphing false (constructed ∅) in
  trig_tbl (audio (toggle_graph (toggle_graph fr))) = false /\
  audio (toggle_graph (toggle_graph fr)) = with_trig_tbl false (audio fr).
Proof.
  cbv zeta.
  destruct (proj1 toggle_graph_twice (with_graphing false (constructed ∅)) eq_refl)
    as (_ & _ & H1 & _ & H2).
  split; [exact H1 | exact H2].
Defined.

Lemma group_gain_is_half_witness :
  (let a := audio (run [MulScrolled 2 105] (mainFrame_init ∅)) in
   group_out (fun _ => 1) a (Lch a) = q0_5 * Mix_out (fun _ => 1) (func a) [0; 1; 2]%nat /\
   group_out (fun _ => 1) a (Rch a) = q0_5 * Mix_out (fun _ => 1) (func a) [3; 4; 5]%nat) /\
  (exists a', mspin 2 init_audio = (Ok tt, a') /\
              func a' !! 0%nat
              = Some (setMul (fdiv (Qc_of_Z 50) q100) (mkSine INIT_FREQ INIT_MUL 0 0 true))).
Proof.
  destruct (group_gain_is_half (laws := binary64_laws)) as (H1 & H2 & _). split.
  - exact (H1 ∅ [MulScrolled 2 105] (fun _ => 1)).
  - destruct (H2 init_audio 0%nat (mkSlider 2 50 0 105) (mkSine INIT_FREQ INIT_MUL 0 0 true))
      as (a' & Ha & Hb & _);
      [apply ids_ok_init_audio | vm_compute; reflexivity | reflexivity | simpl; lia |].
    exists a'. split; [exact Ha | exact Hb].
Defined.

(** The top of the slider is reachable: after the slider of channel 0 was
    moved to 105 the oscillator has the gain 1.05, which is more than
    1. *)
Lemma full_scale_gain :
  sine_mul <$> func (audio (run [MulScrolled 2 105] (mainFrame_init ∅))) !! 0%nat
  = Some q1_05 /\ 1 < q1_05.
Proof. split; [vm_compute; f_equal; qc_eq | reflexivity]. Qed.

End Binary64.
